(** * cross-seed: the pre-filter and the Deluge client adapter

    A shallow embedding of [src/preFilter.ts] ([filterDupes],
    [filterTimestamps]) and of [src/clients/Deluge.ts] (the session
    handling, the label handling, [checkCompleted] and [inject]),
    followed by the properties of the specification that concern them.

    Conventions of the embedding.
    - A JavaScript [number] is an integer of [Z]: the code only tests
      numbers for truthiness, orders them as timestamps, and counts
      message ids.
    - An optional field ([infoHash?: string], [path?: string]) is an
      [option]; [None] is [undefined].
    - A [Map] is an association list in insertion order, overwritten in
      place, which is the iteration order of a JavaScript [Map]. *)

From Stdlib Require Import ZArith List String Ascii Bool Lia DecimalString.
Import ListNotations.
Local Open Scope string_scope.
Local Open Scope list_scope.
Local Open Scope Z_scope.

(* ================================================================= *)
(** * Part I: src/preFilter.ts *)
(* ================================================================= *)

Module PreFilter.

(** ** Searchee (searchee.ts: the type declaration only) *)

Record File := mkFile { file_name : string; file_length : Z }.

Record Searchee := mkSearchee {
  name : string;
  files : list File;
  path : option string;
  infoHash : option string
}.

(** Truthiness of an optional string: [undefined] and the empty string
    are falsy, every other string is truthy. *)
Definition truthy_ostr (o : option string) : bool :=
  match o with
  | None => false
  | Some s => negb (s =? "")%string
  end.

(** ** filterDupes *)

(** The accumulator of the [reduce]: a [Map<string, Searchee>]. *)
Definition SMap := list (string * Searchee).

Fixpoint map_get (k : string) (m : SMap) : option Searchee :=
  match m with
  | [] => None
  | (k', v) :: m' => if (k =? k')%string then Some v else map_get k m'
  end.

(** [Map.prototype.set]: an existing key keeps its position, a new key
    goes last. *)
Fixpoint map_set (k : string) (v : Searchee) (m : SMap) : SMap :=
  match m with
  | [] => [(k, v)]
  | (k', v') :: m' =>
      if (k =? k')%string then (k', v) :: m' else (k', v') :: map_set k v m'
  end.

Definition map_values (m : SMap) : list Searchee := List.map snd m.

(** The callback of the [reduce] (lines 98-106). *)
Definition dupe_step (acc : SMap) (cur : Searchee) : SMap :=
  match map_get (name cur) acc with
  | None => map_set (name cur) cur acc
  | Some entry =>
      if truthy_ostr (infoHash cur) && negb (truthy_ostr (infoHash entry))
      then map_set (name cur) cur acc
      else acc
  end.

Definition duplicateMap (searchees : list Searchee) : SMap :=
  fold_left dupe_step searchees [].

(** [filterDupes] returns the values of the map; the count of dropped
    entries is only logged. *)
Definition filterDupes (searchees : list Searchee) : list Searchee :=
  map_values (duplicateMap searchees).

Definition numDupes (searchees : list Searchee) : Z :=
  Z.of_nat (List.length searchees) - Z.of_nat (List.length (filterDupes searchees)).

Definition has_name (n : string) (s : Searchee) : bool := (name s =? n)%string.

(** ** filterTimestamps *)

(** The three tables the query reads.  Columns that the query does not
    touch are left out. *)
Record SearcheeRow := mkSearcheeRow { searchee_id : Z; searchee_name : string }.
Record IndexerRow := mkIndexerRow { indexer_id : Z }.
Record TimestampRow := mkTimestampRow {
  ts_searchee_id : Z;
  ts_indexer_id : Z;
  first_searched : option Z;
  last_searched : option Z
}.

Record Db := mkDb {
  tbl_searchee : list SearcheeRow;
  tbl_indexer : list IndexerRow;
  tbl_timestamp : list TimestampRow
}.

(** A row of [searchee CROSS JOIN indexer LEFT OUTER JOIN timestamp]:
    the timestamp part is [None] (all columns NULL) when no timestamp
    row matches the pair. *)
Definition JoinRow := (SearcheeRow * IndexerRow * option TimestampRow)%type.

Definition on_clause (s : SearcheeRow) (i : IndexerRow) (t : TimestampRow) : bool :=
  (ts_indexer_id t =? indexer_id i) && (ts_searchee_id t =? searchee_id s).

Definition leftOuterJoin (ts : list TimestampRow) (si : SearcheeRow * IndexerRow)
  : list JoinRow :=
  match filter (on_clause (fst si) (snd si)) ts with
  | [] => [(fst si, snd si, None)]
  | matched => List.map (fun t => (fst si, snd si, Some t)) matched
  end.

Definition crossJoin (ss : list SearcheeRow) (is_ : list IndexerRow)
  : list (SearcheeRow * IndexerRow) :=
  flat_map (fun s => List.map (fun i => (s, i)) is_) ss.

Definition where_clause (nm : string) (enabled : list Z) (r : JoinRow) : bool :=
  let '(s, i, _) := r in
  (searchee_name s =? nm)%string && existsb (Z.eqb (indexer_id i)) enabled.

Definition joined (db : Db) (nm : string) (enabled : list Z) : list JoinRow :=
  filter (where_clause nm enabled)
    (flat_map (leftOuterJoin (tbl_timestamp db))
       (crossJoin (tbl_searchee db) (tbl_indexer db))).

(** SQL [coalesce(column, d)] over the nullable side of the outer join. *)
Definition coalesce (col : TimestampRow -> option Z) (d : Z) (r : JoinRow) : Z :=
  match snd r with
  | Some t => match col t with Some v => v | None => d end
  | None => d
  end.

(** SQL [MIN]: NULL over no rows. *)
Definition sql_min (l : list Z) : option Z :=
  match l with
  | [] => None
  | x :: l' => Some (fold_left Z.min l' x)
  end.

Definition INT64_MAX : Z := 9223372036854775807.

Record TimestampData := mkTimestampData {
  first_searched_any : option Z;
  last_searched_all : option Z
}.

(** The query of lines 122-142: both aggregates are [min]. *)
Definition timestampDataSql (db : Db) (nm : string) (enabled : list Z)
  : TimestampData :=
  let rows := joined db nm enabled in
  {| first_searched_any := sql_min (List.map (coalesce first_searched INT64_MAX) rows);
     last_searched_all := sql_min (List.map (coalesce last_searched 0) rows) |}.

(** The two options of the runtime configuration that the gate reads;
    [None] is "not a number". *)
Record RuntimeConfig := mkRuntimeConfig {
  excludeOlder : option Z;
  excludeRecentSearch : option Z
}.

(** Modelled from the spec: [nMsAgo] of utils.ts, which is not among the
    sources; "now-minus-that-duration". *)
Definition nMsAgo (now n : Z) : Z := now - n.

(** Truthiness of a nullable number. *)
Definition truthy_onum (o : option Z) : bool :=
  match o with
  | None => false
  | Some z => negb (z =? 0)
  end.

Definition onum_lt (o : option Z) (b : Z) : bool :=
  match o with Some z => z <? b | None => false end.

Definition onum_gt (o : option Z) (b : Z) : bool :=
  match o with Some z => z >? b | None => false end.

(** Lines 152-163. *)
Definition older_rule (cfg : RuntimeConfig) (now : Z) (d : TimestampData) : bool :=
  match excludeOlder cfg with
  | Some n => truthy_onum (first_searched_any d)
              && onum_lt (first_searched_any d) (nMsAgo now n)
  | None => false
  end.

(** Lines 165-176. *)
Definition recent_rule (cfg : RuntimeConfig) (now : Z) (d : TimestampData) : bool :=
  match excludeRecentSearch cfg with
  | Some n => truthy_onum (last_searched_all d)
              && onum_gt (last_searched_all d) (nMsAgo now n)
  | None => false
  end.

(** [enabled] is the list of ids of [getEnabledIndexers()], [now] the
    clock read by [nMsAgo]. *)
Definition filterTimestamps (cfg : RuntimeConfig) (db : Db) (enabled : list Z)
    (now : Z) (searchee : Searchee) : bool :=
  let d := timestampDataSql db (name searchee) enabled in
  if older_rule cfg now d then false
  else if recent_rule cfg now d then false
  else true.

(** The aggregate as the specification words it: the latest last-search
    timestamp among the enabled indexers, zero when there is none. *)
Definition spec_last_searched_all (db : Db) (nm : string) (enabled : list Z) : Z :=
  fold_right Z.max 0 (List.map (coalesce last_searched 0) (joined db nm enabled)).

(** A searchee never searched on any enabled indexer: whatever timestamp
    row the join attaches to it carries no search time. *)
Definition never_searched (db : Db) (nm : string) (enabled : list Z) : Prop :=
  forall r t, In r (joined db nm enabled) -> snd r = Some t ->
    first_searched t = None /\ last_searched t = None.

(** What the reducer does to the entry of one name when it meets
    [cur]. *)
Definition pick (entry : option Searchee) (cur : Searchee) : option Searchee :=
  match entry with
  | None => Some cur
  | Some e =>
      if truthy_ostr (infoHash cur) && negb (truthy_ostr (infoHash e))
      then Some cur else Some e
  end.

(** Every key is the name of its value, and no key occurs twice. *)
Definition keyed (m : SMap) : Prop :=
  NoDup (List.map fst m) /\ Forall (fun kv => name (snd kv) = fst kv) m.

End PreFilter.

(* ================================================================= *)
(** * Part II: src/clients/Deluge.ts *)
(* ================================================================= *)

Module Deluge.

Import PreFilter.

(** ** JavaScript values

    The values the adapter receives from the client are parsed JSON;
    [VUndef] is [undefined], the value of an absent property.  An object
    is the list of its own properties.  Inherited properties are not
    modelled: the keys the adapter reads ([result], [error], [message],
    [torrents], [state] and an info hash) name none. *)
#[warnings="-register-all"]
Inductive value :=
| VUndef
| VNull
| VBool (b : bool)
| VNum (z : Z)
| VStr (s : string)
| VArr (items : list value)
| VObj (fields : list (string * value)).

Definition truthy (v : value) : bool :=
  match v with
  | VUndef | VNull => false
  | VBool b => b
  | VNum z => negb (z =? 0)
  | VStr s => negb (s =? "")%string
  | VArr _ | VObj _ => true
  end.

(** [v === null] *)
Definition is_null (v : value) : bool :=
  match v with VNull => true | _ => false end.

(** What an operation can throw. *)
Inductive Exn :=
| TypeError
| CrossSeedError (msg : string).

Inductive Result (A : Type) :=
| Ret (a : A)
| Throw (e : Exn).
Arguments Ret {A} a.
Arguments Throw {A} e.

Fixpoint lookup (k : string) (fields : list (string * value)) : value :=
  match fields with
  | [] => VUndef
  | (k', v) :: rest => if (k =? k')%string then v else lookup k rest
  end.

(** [v[k]]: reading a property of [undefined] or [null] throws a
    TypeError; a primitive or an array has no property of the names
    read here. *)
Definition get (v : value) (k : string) : Result value :=
  match v with
  | VUndef | VNull => Throw TypeError
  | VObj fields => Ret (lookup k fields)
  | _ => Ret VUndef
  end.

(** [String.prototype.includes] *)
Fixpoint str_includes (needle hay : string) : bool :=
  String.prefix needle hay
  || match hay with
     | EmptyString => false
     | String _ hay' => str_includes needle hay'
     end.

Definition is_str (s : string) (v : value) : bool :=
  match v with VStr t => (t =? s)%string | _ => false end.

(** [v.includes(s)]: a string searches for a substring, an array for an
    element; no other value has the method, and calling it throws. *)
Definition call_includes (v : value) (s : string) : Result bool :=
  match v with
  | VStr t => Ret (str_includes s t)
  | VArr items => Ret (existsb (is_str s) items)
  | _ => Throw TypeError
  end.

(** [String(v)]; [Array.prototype.join] prints [undefined] and [null]
    as the empty string. *)
Fixpoint toString (v : value) : string :=
  match v with
  | VUndef => "undefined"
  | VNull => "null"
  | VBool true => "true"
  | VBool false => "false"
  | VNum z => NilZero.string_of_int (Z.to_int z)
  | VStr s => s
  | VArr items =>
      (fix join (l : list value) : string :=
         match l with
         | [] => ""
         | x :: rest =>
             let sx := match x with VUndef | VNull => "" | _ => toString x end in
             match rest with
             | [] => sx
             | _ :: _ => (sx ++ "," ++ join rest)%string
             end
         end) items
  | VObj _ => "[object Object]"
  end.

(** [v == "Seeding"]: a string is compared as it is, an object through
    its primitive (its string); a number or a boolean is compared with
    the number of ["Seeding"], which is NaN. *)
Definition is_Seeding (v : value) : bool :=
  match v with
  | VStr s => (s =? "Seeding")%string
  | VArr _ | VObj _ => (toString v =? "Seeding")%string
  | _ => false
  end.

(** [c.split(";")[0]] *)
Fixpoint before_semicolon (c : string) : string :=
  match c with
  | EmptyString => EmptyString
  | String a c' =>
      if Ascii.eqb a ";"%char then EmptyString else String a (before_semicolon c')
  end.

(** ** The wire *)

Record Headers := mkHeaders { set_cookie : option (list string) }.

(** An [AxiosResponse]: its [headers] is always an object. *)
Record AxiosResponse := mkResponse { data : value; headers : Headers }.

(** What [call] posts: the body [{params, method, id}] and the Cookie
    header. *)
Record Request := mkRequest {
  req_id : Z;
  req_method : string;
  req_params : list value;
  req_cookie : string
}.

(** A request and what came back; [None] is the [null] that [call]
    resolves to when the post fails. *)
Definition Exchange := (Request * option AxiosResponse)%type.

(** ** The adapter *)

(** The runtime configuration the adapter reads: the parts of
    [delugeWebUrl], [dataCategory] and [skipRecheck]. *)
Record Config := mkConfig {
  url_username : string;
  url_password : string;
  url_origin : string;
  dataCategory : string;
  skipRecheck : bool
}.

(** A promise, once settled.  As an object it is truthy whatever it
    settled to. *)
Inductive Promise (A : Type) :=
| Resolved (a : A)
| Rejected (e : Exn).
Arguments Resolved {A} a.
Arguments Rejected {A} e.

(** The mutable fields of the class; [enLabeled] is [None] until
    [validateConfig] assigns it. *)
Record Fields := mkFields {
  msgId : Z;
  loggedIn : bool;
  delugeCookie : string;
  enLabeled : option (Promise bool)
}.

Inductive InjectionResult :=
| SUCCESS
| ALREADY_EXISTS
| TORRENT_NOT_COMPLETE
| FAILURE.

(** The candidate release (parseTorrent.ts: the type only);
    [encoded_base64] is [encode().toString("base64")]. *)
Record Metafile := mkMetafile {
  meta_name : string;
  meta_infoHash : string;
  encoded_base64 : string
}.

(** The [params] of [checkCompleted] (line 219). *)
Definition update_ui_params : list value :=
  [VArr [VStr "name"; VStr "state"; VStr "save_path"]; VArr []].

Section Adapter.

(** The client on the other end of the wire: a state and how it answers
    a request. *)
Variable Server : Type.
Variable serve : Server -> Request -> option AxiosResponse * Server.
Variable cfg : Config.

Record World := mkWorld { this : Fields; server : Server }.

(** An operation runs from a world and ends with a result or a throw, a
    world, and the exchanges it made, oldest first. *)
Definition M (A : Type) : Type := World -> Result A * World * list Exchange.

Definition ret {A} (a : A) : M A := fun w => (Ret a, w, []).
Definition throw {A} (e : Exn) : M A := fun w => (Throw e, w, []).

Definition bind {A B} (m : M A) (f : A -> M B) : M B :=
  fun w =>
    match m w with
    | (Ret a, w1, l1) =>
        match f a w1 with
        | (r, w2, l2) => (r, w2, l1 ++ l2)
        end
    | (Throw e, w1, l1) => (Throw e, w1, l1)
    end.

Definition lift {A} (r : Result A) : M A := fun w => (r, w, []).

(** [try { m } catch (e) { h e }] *)
Definition try_catch {A} (m : M A) (h : Exn -> M A) : M A :=
  fun w =>
    match m w with
    | (Throw e, w1, l1) =>
        match h e w1 with
        | (r, w2, l2) => (r, w2, l1 ++ l2)
        end
    | ok => ok
    end.

(** An async call that is not awaited.  It is run to its end where it
    is called: its requests are made, its outcome stays in its promise,
    and a rejection does not reach the caller. *)
Definition spawn {A} (m : M A) : M (Promise A) :=
  fun w =>
    match m w with
    | (Ret a, w1, l1) => (Ret (Resolved a), w1, l1)
    | (Throw e, w1, l1) => (Ret (Rejected e), w1, l1)
    end.

Definition get_this : M Fields := fun w => (Ret (this w), w, []).
Definition put_this (f : Fields) : M unit :=
  fun w => (Ret tt, mkWorld f (server w), []).

Notation "x <- m ;; k" := (bind m (fun x => k))
  (at level 61, m at next level, right associativity).
Notation "m ;;; k" := (bind m (fun _ => k))
  (at level 61, right associativity).

(** [call] (lines 103-123): number the body, post it with the current
    cookie; a failed post resolves to [null]. *)
Definition call (method : string) (params : list value) : M (option AxiosResponse) :=
  fun w =>
    let f := this w in
    let id := msgId f + 1 in
    let f' := mkFields (if id >? 1024 then 0 else id)
                       (loggedIn f) (delugeCookie f) (enLabeled f) in
    let req := mkRequest id method params (delugeCookie f) in
    let (resp, srv) := serve (server w) req in
    (Ret resp, mkWorld f' srv, [(req, resp)]).

Definition set_loggedIn (b : bool) : M unit :=
  f <- get_this ;;
  put_this (mkFields (msgId f) b (delugeCookie f) (enLabeled f)).

Definition set_delugeCookie (c : string) : M unit :=
  f <- get_this ;;
  put_this (mkFields (msgId f) (loggedIn f) c (enLabeled f)).

Definition set_enLabeled (p : Promise bool) : M unit :=
  f <- get_this ;;
  put_this (mkFields (msgId f) (loggedIn f) (delugeCookie f) (Some p)).

Definition is_some {A} (o : option A) : bool :=
  match o with Some _ => true | None => false end.

(** [authenticate] (lines 50-79). *)
Definition authenticate : M bool :=
  f <- get_this ;;
  (if negb (loggedIn f) then
     response <- call "auth.login" [VStr (url_password cfg)] ;;
     match response with
     | None =>
         throw (CrossSeedError ("Could not reach deluge: " ++ url_origin cfg)%string)
     | Some r =>
         result <- lift (get (data r) "result") ;;
         if truthy result then
           match set_cookie (headers r) with
           | Some cookies =>
               match cookies with
               | c :: _ =>
                   set_delugeCookie (before_semicolon c) ;;;
                   set_loggedIn true
               | [] => throw TypeError
               end
           | None => ret tt
           end
         else ret tt
     end
   else
     response <- call "auth.check_session" [VStr (delugeCookie f)] ;;
     set_loggedIn (is_some response)) ;;;
  f' <- get_this ;;
  ret (loggedIn f').

(** The value of the [return] of [sendCall] (lines 98-100):
    [response && response.data && response.data.error === null
       ? response.data : response.data.error]. *)
Definition sendCall_return (response : option AxiosResponse) : Result value :=
  match response with
  | None => Throw TypeError
  | Some r =>
      if truthy (data r) then
        match get (data r) "error" with
        | Ret e => if is_null e then Ret (data r) else get (data r) "error"
        | Throw x => Throw x
        end
      else get (data r) "error"
  end.

(** [sendCall] (lines 84-101). *)
Definition sendCall (method : string) (params : list value) : M value :=
  f <- get_this ;;
  response <-
    (if negb (loggedIn f) then
       authenticate ;;;
       call method params
     else
       call method params) ;;
  lift (sendCall_return response).

(** [labelEnabled] (lines 129-135). *)
Definition labelEnabled : M bool :=
  enabledLabels <- sendCall "core.get_enabled_plugins" [] ;;
  result <- lift (get enabledLabels "result") ;;
  lift (call_includes result "Label").

(** [validateConfig] (lines 26-45). *)
Definition validateConfig : M unit :=
  if negb (url_username cfg =? "")%string && (url_password cfg =? "")%string then
    throw (CrossSeedError
      "you need to define a password in the delugeWebUrl. (eg: http://:<PASSWORD>@localhost:8112)")
  else
    result <- authenticate ;;
    if negb result then
      throw (CrossSeedError "failed to authenticate the deluge daemon.")
    else
      p <- spawn labelEnabled ;;
      set_enLabeled p.

(** [m && m.includes(s)] as a condition. *)
Definition truthy_and_includes (m : value) (s : string) : Result bool :=
  if truthy m then call_includes m s else Ret false.

(** [setLabel] (lines 136-156).  The test of [this.enLabeled] is the
    test of a [Promise<boolean>] object or of [undefined]. *)
Definition setLabel (torrenthash : string) : M bool :=
  f <- get_this ;;
  match enLabeled f with
  | Some _ =>
      setResult <- sendCall "label.set_torrent"
                     [VStr torrenthash; VStr (dataCategory cfg)] ;;
      message <- lift (get setResult "message") ;;
      unknown <- lift (truthy_and_includes message "Unknown Label") ;;
      (if unknown then
         sendCall "label.add" [VStr (dataCategory cfg)] ;;;
         sendCall "label.set_torrent"
           [VStr torrenthash; VStr (dataCategory cfg)] ;;;
         ret tt
       else ret tt) ;;;
      ret true
  | None => ret false
  end.

Definition of_ostr (o : option string) : value :=
  match o with Some s => VStr s | None => VUndef end.

(** [formatData] (lines 196-213). *)
Definition formatData (filename filedump : string) (path : option string)
  : list value :=
  [ VStr filename;
    VStr filedump;
    VObj [ ("file_priorities", VArr []);
           ("add_paused", VBool false);
           ("seed_mode", VBool (skipRecheck cfg));
           ("compact_allocation", VBool true);
           ("download_location", of_ostr path);
           ("max_connections", VNum (-1));
           ("max_download_speed", VNum (-1));
           ("max_upload_slots", VNum (-1));
           ("max_upload_speed", VNum (-1));
           ("prioritize_first_last_pieces", VBool false) ] ].

(** [response["result"]["torrents"][infohash]["state"]] *)
Definition state_of (response : value) (infohash : string) : Result value :=
  match get response "result" with
  | Ret r =>
      match get r "torrents" with
      | Ret ts =>
          match get ts infohash with
          | Ret t => get t "state"
          | Throw e => Throw e
          end
      | Throw e => Throw e
      end
  | Throw e => Throw e
  end.

(** [checkCompleted] (lines 218-235).  The [response] that the handler
    reads is the one declared before the [try], which is never
    assigned: the [try] block declares its own.  A call that neither
    returns [true] nor throws ends without a [return]: [None]. *)
Definition checkCompleted (infohash : string) : M (option bool) :=
  let params := update_ui_params in
  let response := VUndef in
  try_catch
    (response <- sendCall "web.update_ui" params ;;
     state <- lift (state_of response infohash) ;;
     if is_Seeding state then ret (Some true) else ret None)
    (fun _ =>
       lift (state_of response infohash) ;;;
       ret (Some false)).

Definition truthy_obool (o : option bool) : bool :=
  match o with Some b => b | None => false end.

(** [inject], what it makes of the reply to the submission (lines
    178-190).  [setLabel] is called and not awaited; the debug line of
    the last branch reads [addResult["message"]] again, which did not
    throw the first time. *)
Definition inject_reply (newTorrent : Metafile) (addResult : value)
  : M InjectionResult :=
  result <- lift (get addResult "result") ;;
  if truthy result then
    spawn (setLabel (meta_infoHash newTorrent)) ;;;
    ret SUCCESS
  else
    message <- lift (get addResult "message") ;;
    already <- lift (truthy_and_includes message "already") ;;
    if already then ret ALREADY_EXISTS
    else ret FAILURE.

(** [inject], the submission (lines 172-177). *)
Definition inject_submit (newTorrent : Metafile) (path : option string)
  : M InjectionResult :=
  let params :=
    formatData (meta_name newTorrent ++ ".cross-seed.torrent")%string
               (encoded_base64 newTorrent) path in
  addResult <- sendCall "core.add_torrent_file" params ;;
  inject_reply newTorrent addResult.

(** The condition of lines 166-169:
    [searchee.infoHash && !(await this.checkCompleted(searchee.infoHash))]. *)
Definition inject_notComplete (searchee : Searchee) : M bool :=
  match infoHash searchee with
  | Some h =>
      if truthy_ostr (Some h) then
        completed <- checkCompleted h ;;
        ret (negb (truthy_obool completed))
      else ret false
  | None => ret false
  end.

(** [inject] (lines 161-191). *)
Definition inject (newTorrent : Metafile) (searchee : Searchee)
    (path : option string) : M InjectionResult :=
  notComplete <- inject_notComplete searchee ;;
  if notComplete then ret TORRENT_NOT_COMPLETE
  else inject_submit newTorrent path.

(** ** Names for the parts of one [call] from a world *)

Definition next_id (w : World) : Z := msgId (this w) + 1.

Definition request_of (w : World) (method : string) (params : list value) : Request :=
  mkRequest (next_id w) method params (delugeCookie (this w)).

Definition after_call (w : World) (method : string) (params : list value) : World :=
  mkWorld
    (mkFields (if next_id w >? 1024 then 0 else next_id w)
              (loggedIn (this w)) (delugeCookie (this w)) (enLabeled (this w)))
    (snd (serve (server w) (request_of w method params))).

Definition reply_of (w : World) (method : string) (params : list value)
  : option AxiosResponse :=
  fst (serve (server w) (request_of w method params)).

End Adapter.

Arguments World Server : clear implicits.
Arguments M Server A : clear implicits.
Arguments ret {Server A} a w.
Arguments throw {Server A} e w.
Arguments bind {Server A B} m f w.
Arguments lift {Server A} r w.
Arguments try_catch {Server A} m h w.
Arguments spawn {Server A} m w.
Arguments get_this {Server} w.
Arguments put_this {Server} f w.
Arguments mkWorld {Server} this server.
Arguments this {Server} w.
Arguments server {Server} w.
Arguments call {Server} serve method params w.
Arguments authenticate {Server} serve cfg w.
Arguments sendCall {Server} serve cfg method params w.
Arguments labelEnabled {Server} serve cfg w.
Arguments validateConfig {Server} serve cfg w.
Arguments setLabel {Server} serve cfg torrenthash w.
Arguments checkCompleted {Server} serve cfg infohash w.
Arguments inject {Server} serve cfg newTorrent searchee path w.
Arguments inject_submit {Server} serve cfg newTorrent path w.
Arguments inject_reply {Server} serve cfg newTorrent addResult w.
Arguments inject_notComplete {Server} serve cfg searchee w.
Arguments next_id {Server} w.
Arguments request_of {Server} w method params.
Arguments after_call {Server} serve w method params.
Arguments reply_of {Server} serve w method params.

(** Every request of the list has one of the methods [ms]. *)
Definition methods_in (ms : list string) (l : list Exchange) : Prop :=
  Forall (fun x => In (req_method (fst x)) ms) l.

(** Every request that the operation [m] makes, from whatever world,
    has one of the methods [ms]. *)
Definition speaks {Server A} (ms : list string) (m : M Server A) : Prop :=
  forall w r w' l, m w = (r, w', l) -> methods_in ms l.

(** The methods that labelling may call. *)
Definition label_methods : list string :=
  ["auth.login"; "label.set_torrent"; "label.add"].

(** ** Kinds of reply *)

(** The client accepts a submission: no error and a truthy result. *)
Definition accepts (o : option AxiosResponse) : bool :=
  match o with
  | Some r =>
      match data r with
      | VObj fields => is_null (lookup "error" fields) && truthy (lookup "result" fields)
      | _ => false
      end
  | None => false
  end.

(** The client replies with an error whose message holds [word]. *)
Definition error_with (word : string) (o : option AxiosResponse) : bool :=
  match o with
  | Some r =>
      match data r with
      | VObj fields =>
          match lookup "error" fields with
          | VObj e =>
              negb (truthy (lookup "result" e))
              && match lookup "message" e with
                 | VStr m => str_includes word m
                 | _ => false
                 end
          | _ => false
          end
      | _ => false
      end
  | None => false
  end.

Definition undef_or_str (v : value) : bool :=
  match v with VUndef | VStr _ => true | _ => false end.

(** A reply in the envelope of the protocol: an object whose [error] is
    [null], or is an object with a string for its message; a
    [set-cookie] header, when there is one, is not empty. *)
Definition envelope (r : AxiosResponse) : bool :=
  match data r with
  | VObj fields =>
      match lookup "error" fields with
      | VNull => undef_or_str (lookup "message" fields)
      | VObj e => undef_or_str (lookup "message" e)
      | _ => false
      end
  | _ => false
  end
  && match set_cookie (headers r) with
     | Some [] => false
     | _ => true
     end.

(** A reply without error that tells the state of [infohash]. *)
Definition reports_state (infohash : string) (r : AxiosResponse) : bool :=
  match data r with
  | VObj fields =>
      is_null (lookup "error" fields)
      && match state_of r.(data) infohash with
         | Ret _ => true
         | Throw _ => false
         end
  | _ => false
  end.

(** The exchanges start with the probe of the session. *)
Definition probes_first (l : list Exchange) : bool :=
  match l with
  | x :: _ => (req_method (fst x) =? "auth.check_session")%string
  | [] => false
  end.

(** The method and the parameters of each request, oldest first. *)
Definition calls (l : list Exchange) : list (string * list value) :=
  List.map (fun x => (req_method (fst x), req_params (fst x))) l.

(** The requests of a list of exchanges, and their methods. *)
Definition methods (l : list Exchange) : list string :=
  List.map (fun x => req_method (fst x)) l.

Definition with_method (m : string) (l : list Exchange) : list Exchange :=
  filter (fun x => (req_method (fst x) =? m)%string) l.

End Deluge.

(* ================================================================= *)
(** * Sample data *)
(* ================================================================= *)

Module Samples.

Import PreFilter.

Definition show_from_client : Searchee :=
  mkSearchee "Show.S01.1080p" [mkFile "Show.S01E01.mkv" 700; mkFile "Show.S01E02.mkv" 710]
             None (Some "c12fe1c06bba254a9dc9f519b335aa7c1367a88a").

Definition show_from_disk : Searchee :=
  mkSearchee "Show.S01.1080p" [mkFile "Show.S01E01.mkv" 700; mkFile "Show.S01E02.mkv" 710]
             (Some "/data/Show.S01.1080p") None.

Definition other_film : Searchee :=
  mkSearchee "Film.2019" [mkFile "Film.2019.mkv" 4000] None None.

(** One searchee, two indexers, searched on both: on indexer 1 last at
    time 100, on indexer 2 last at time 200. *)
Definition db_searched_twice : Db :=
  mkDb [mkSearcheeRow 1 "Show.S01.1080p"]
       [mkIndexerRow 1; mkIndexerRow 2]
       [mkTimestampRow 1 1 (Some 50) (Some 100);
        mkTimestampRow 1 2 (Some 60) (Some 200)].

(** The searchee was searched on indexer 3 only, which is not enabled. *)
Definition db_unsearched : Db :=
  mkDb [mkSearcheeRow 1 "Show.S01.1080p"; mkSearcheeRow 2 "Film.2019"]
       [mkIndexerRow 1; mkIndexerRow 2; mkIndexerRow 3]
       [mkTimestampRow 1 3 (Some 1600000000000) (Some 1699999999000);
        mkTimestampRow 2 1 (Some 1600000000000) (Some 1699999999000)].

Definition cfg_windows : RuntimeConfig :=
  mkRuntimeConfig (Some 86400000) (Some 3600000).

Definition sample_now : Z := 1700000000000.

(** *** A client to talk to *)

Import Deluge.

Definition sample_hash : string := "c12fe1c06bba254a9dc9f519b335aa7c1367a88a".

Definition sample_metafile : Metafile :=
  mkMetafile "Show.S01.1080p.WEB-GRP" "7b0e3d2a9c4f5e6d8a1b2c3d4e5f60718293a4b5"
             "ZDg6YW5ub3VuY2U=".

Definition sample_cfg : Config :=
  mkConfig "" "deluge" "http://localhost:8112" "cross-seed" false.

(** What the sample client remembers: the files it was given and the
    labels it knows. *)
Record Client := mkClient { added : list string; labels : list string }.

Definition reply (result error : value) (id : Z) (cookie : option (list string))
  : option AxiosResponse :=
  Some (mkResponse (VObj [("result", result); ("error", error); ("id", VNum id)])
                   (mkHeaders cookie)).

Definition ok (result : value) (req : Request) : option AxiosResponse :=
  reply result VNull (req_id req) None.

Definition failed (message : string) (code : Z) (req : Request) : option AxiosResponse :=
  reply VNull (VObj [("message", VStr message); ("code", VNum code)]) (req_id req) None.

Definition torrent_entry (t : string * string) : string * value :=
  (fst t, VObj [("name", VStr "Show.S01.1080p"); ("state", VStr (snd t));
                ("save_path", VStr "/data")]).

(** A small web client: [plugins] are its enabled plugins, [torrents]
    the states of the torrents it holds, [keeps_labels] whether a label
    it is asked to create is there afterwards. *)
Definition sample_serve (plugins : list string) (torrents : list (string * string))
    (keeps_labels : bool) (c : Client) (req : Request)
  : option AxiosResponse * Client :=
  let m := req_method req in
  if (m =? "auth.login")%string then
    (reply (VBool true) VNull (req_id req)
       (Some ["_session_id=2f6d0b1c; Expires=Fri, 03 Nov 2023 10:00:00 GMT; Path=/"]), c)
  else if (m =? "auth.check_session")%string then (ok (VBool true) req, c)
  else if (m =? "core.get_enabled_plugins")%string then
    (ok (VArr (List.map VStr plugins)) req, c)
  else if (m =? "web.update_ui")%string then
    (ok (VObj [("connected", VBool true);
               ("torrents", VObj (List.map torrent_entry torrents))]) req, c)
  else if (m =? "core.add_torrent_file")%string then
    match req_params req with
    | VStr filename :: _ =>
        if existsb (String.eqb filename) (added c)
        then (failed "Torrent already in session" 4 req, c)
        else (ok (VStr filename) req, mkClient (filename :: added c) (labels c))
    | _ => (failed "Bad arguments" 3 req, c)
    end
  else if (m =? "label.set_torrent")%string then
    if negb (existsb (String.eqb "Label") plugins) then (failed "Unknown method" 2 req, c)
    else
      match req_params req with
      | [VStr _; VStr l] =>
          if existsb (String.eqb l) (labels c) then (ok VNull req, c)
          else (failed "Unknown Label" 4 req, c)
      | _ => (failed "Bad arguments" 3 req, c)
      end
  else if (m =? "label.add")%string then
    match req_params req with
    | [VStr l] =>
        (ok VNull req,
         if keeps_labels then mkClient (added c) (l :: labels c) else c)
    | _ => (failed "Bad arguments" 3 req, c)
    end
  else (failed "Unknown method" 2 req, c).

(** A client that cannot be reached. *)
Definition dead_serve (c : unit) (req : Request) : option AxiosResponse * unit :=
  (None, c).

Definition new_fields : Fields := mkFields 0 false "" None.

Definition new_world : World Client := mkWorld new_fields (mkClient [] []).

Definition dead_world : World unit := mkWorld new_fields tt.

(** A session that logged in and found the Label plugin. *)
Definition labelled_world : World Client :=
  mkWorld (mkFields 2 true "_session_id=2f6d0b1c" (Some (Resolved true)))
          (mkClient [] []).

(** The Label plugin is enabled and the torrent of the searchee is
    seeding. *)
Definition label_serve := sample_serve ["Label"] [(sample_hash, "Seeding")] true.

(** The same, but a created label does not stay. *)
Definition forgetful_serve := sample_serve ["Label"] [(sample_hash, "Seeding")] false.

(** The torrent of the searchee is still downloading. *)
Definition downloading_serve :=
  sample_serve ["Label"] [(sample_hash, "Downloading")] true.

(** No plugin is enabled and the client holds no torrent. *)
Definition plain_serve := sample_serve [] [] true.

(** The world that [validateConfig] leaves. *)
Definition validated {Server : Type}
    (serve : Server -> Request -> option AxiosResponse * Server)
    (w : World Server) : World Server :=
  snd (fst (validateConfig serve sample_cfg w)).

Definition inject_sample {Server : Type}
    (serve : Server -> Request -> option AxiosResponse * Server)
    (searchee : Searchee) (w : World Server) :=
  inject serve sample_cfg sample_metafile searchee None w.

(** Two injections in a row of the same torrent. *)
Definition first_inject :=
  inject_sample label_serve show_from_client (validated label_serve new_world).

Definition second_inject :=
  inject_sample label_serve show_from_client (snd (fst first_inject)).

End Samples.

(* ================================================================= *)
(** * Part II-b: the content filter of src/preFilter.ts *)
(* ================================================================= *)

Module Content.

Import PreFilter.

(** [PrefilterResult] (constants.ts: the enum only). *)
Inductive PrefilterResult :=
| INCLUDED
| EXCLUDED_SINGLE_EPISODE
| EXCLUDED_SEASON_PACK_EPISODE
| EXCLUDED_NON_VIDEOS.

Definition result_eqb (a b : PrefilterResult) : bool :=
  match a, b with
  | INCLUDED, INCLUDED
  | EXCLUDED_SINGLE_EPISODE, EXCLUDED_SINGLE_EPISODE
  | EXCLUDED_SEASON_PACK_EPISODE, EXCLUDED_SEASON_PACK_EPISODE
  | EXCLUDED_NON_VIDEOS, EXCLUDED_NON_VIDEOS => true
  | _, _ => false
  end.

(** The three flags of the runtime configuration that the content
    filter reads. *)
Record ContentConfig := mkContentConfig {
  includeEpisodes : bool;
  includeNonVideos : bool;
  includeSingleEpisodes : bool
}.

(** A line of the log: [logger.verbose] or [logger.info], always with
    the label of the pre-filter. *)
Inductive Level := verbose | info.
Record LogLine := mkLogLine { level : Level; message : string }.

(** The [tally] object of [filterAllByContent]. *)
Record Tally := mkTally {
  non_videos : Z;
  single_episode : Z;
  season_pack_episode : Z
}.

Section Constants.

(** What constants.ts and the path module supply, neither among the
    sources: [EP_REGEX.test], [SEASON_REGEX.test], the list
    [VIDEO_EXTENSIONS], [extname], and [path.basename(path.dirname(p))]. *)
Variable EP_REGEX : string -> bool.
Variable SEASON_REGEX : string -> bool.
Variable VIDEO_EXTENSIONS : list string.
Variable extname : string -> string.
Variable dirname_basename : string -> string.
Variable cfg : ContentConfig.

(** Line 27-28. *)
Definition isSingleEpisodeTorrent (searchee : Searchee) : bool :=
  (List.length (files searchee) =? 1)%nat && EP_REGEX (name searchee).

(** Lines 29-32, as a condition: an absent or empty [path] is falsy. *)
Definition isSeasonPackEpisode (searchee : Searchee) : bool :=
  match path searchee with
  | Some p =>
      negb (p =? "")%string
      && (List.length (files searchee) =? 1)%nat
      && SEASON_REGEX (dirname_basename p)
  | None => false
  end.

(** Lines 46-48. *)
Definition allFilesAreVideos (searchee : Searchee) : bool :=
  forallb (fun file => existsb (String.eqb (extname (file_name file))) VIDEO_EXTENSIONS)
          (files searchee).

(** [filterByContent] (lines 23-55). *)
Definition filterByContent (searchee : Searchee) : PrefilterResult :=
  if negb (includeEpisodes cfg)
     && negb (includeSingleEpisodes cfg)
     && isSingleEpisodeTorrent searchee
     && negb (isSeasonPackEpisode searchee)
  then EXCLUDED_SINGLE_EPISODE
  else if includeSingleEpisodes cfg && isSeasonPackEpisode searchee
  then EXCLUDED_SEASON_PACK_EPISODE
  else if negb (includeNonVideos cfg) && negb (allFilesAreVideos searchee)
  then EXCLUDED_NON_VIDEOS
  else INCLUDED.

(** The [reasons] table (lines 65-70); it has no entry for [INCLUDED],
    which is never looked up. *)
Definition reasons (r : PrefilterResult) : string :=
  match r with
  | EXCLUDED_NON_VIDEOS => "not all files are videos"
  | EXCLUDED_SINGLE_EPISODE => "it is a single episode"
  | EXCLUDED_SEASON_PACK_EPISODE => "it is a season pack episode"
  | INCLUDED => "undefined"
  end.

(** [tally[r]] and [tally[r]++]. *)
Definition tally_get (t : Tally) (r : PrefilterResult) : Z :=
  match r with
  | EXCLUDED_NON_VIDEOS => non_videos t
  | EXCLUDED_SINGLE_EPISODE => single_episode t
  | EXCLUDED_SEASON_PACK_EPISODE => season_pack_episode t
  | INCLUDED => 0
  end.

Definition tally_incr (t : Tally) (r : PrefilterResult) : Tally :=
  match r with
  | EXCLUDED_NON_VIDEOS =>
      mkTally (non_videos t + 1) (single_episode t) (season_pack_episode t)
  | EXCLUDED_SINGLE_EPISODE =>
      mkTally (non_videos t) (single_episode t + 1) (season_pack_episode t)
  | EXCLUDED_SEASON_PACK_EPISODE =>
      mkTally (non_videos t) (single_episode t) (season_pack_episode t + 1)
  | INCLUDED => t
  end.

(** [logReason] (lines 16-21). *)
Definition logReason (nm reason : string) : LogLine :=
  mkLogLine verbose
    ("Torrent " ++ nm ++ " was not selected for searching because " ++ reason)%string.

(** [logExclusionsOfType] (lines 72-80): the lines it adds to the log. *)
Definition logExclusionsOfType (t : Tally) (r : PrefilterResult) : list LogLine :=
  let count := tally_get t r in
  if count >? 0 then
    [mkLogLine info
       ("Excluded " ++ NilZero.string_of_int (Z.to_int count)
        ++ " torrents with reason: " ++ reasons r)%string]
  else [].

(** The state of the loop of lines 82-90: [output], [tally] and the log
    so far. *)
Definition LoopState := (list Searchee * Tally * list LogLine)%type.

Definition content_step (st : LoopState) (searchee : Searchee) : LoopState :=
  let '(output, tally, log) := st in
  let prefilterResult := filterByContent searchee in
  if result_eqb prefilterResult INCLUDED then
    (output ++ [searchee], tally, log)
  else
    (output, tally_incr tally prefilterResult,
     log ++ [logReason (name searchee) (reasons prefilterResult)]).

(** [filterAllByContent] (lines 57-95): the returned list and the lines
    logged. *)
Definition filterAllByContent_run (searchees : list Searchee)
  : list Searchee * list LogLine :=
  let '(output, tally, log) :=
    fold_left content_step searchees ([], mkTally 0 0 0, []) in
  (output,
   log ++ logExclusionsOfType tally EXCLUDED_SINGLE_EPISODE
       ++ logExclusionsOfType tally EXCLUDED_SEASON_PACK_EPISODE
       ++ logExclusionsOfType tally EXCLUDED_NON_VIDEOS).

Definition filterAllByContent (searchees : list Searchee) : list Searchee :=
  fst (filterAllByContent_run searchees).

(** The test of line 84. *)
Definition included (searchee : Searchee) : bool :=
  result_eqb (filterByContent searchee) INCLUDED.

(** The summary line of a result that [n] searchees got. *)
Definition summary (r : PrefilterResult) (n : nat) : list LogLine :=
  match n with
  | O => []
  | S _ =>
      [mkLogLine info
         ("Excluded " ++ NilZero.string_of_int (Z.to_int (Z.of_nat n))
          ++ " torrents with reason: " ++ reasons r)%string]
  end.

(** How many of the searchees get the result [r]. *)
Definition count_result (r : PrefilterResult) (searchees : list Searchee) : nat :=
  List.length (filter (fun s => result_eqb (filterByContent s) r) searchees).

End Constants.

End Content.

Module ContentSamples.

Import PreFilter Content.

(** Stand-ins for the constants, good for the sample names below: an
    episode has a mark like E01, a season directory has S01 and no
    episode mark, the extension is the last four characters, and the
    directory of a file is the component before the last of its path. *)
Definition sample_EP (nm : string) : bool := Deluge.str_includes "E0" nm.

Definition sample_SEASON (dir : string) : bool :=
  Deluge.str_includes "S0" dir && negb (Deluge.str_includes "E0" dir).

Definition sample_VIDEO_EXTENSIONS : list string := [".mkv"; ".mp4"; ".avi"].

Definition sample_extname (nm : string) : string :=
  String.substring (String.length nm - 4) 4 nm.

Fixpoint components (acc : string) (p : string) : list string :=
  match p with
  | EmptyString => [acc]
  | String c p' =>
      if Ascii.eqb c "/"%char then acc :: components EmptyString p'
      else components (acc ++ String c EmptyString)%string p'
  end.

Definition sample_dirname_basename (p : string) : string :=
  match rev (components EmptyString p) with
  | _ :: dir :: _ => dir
  | _ => EmptyString
  end.

Definition classify (cfg : ContentConfig) : Searchee -> PrefilterResult :=
  filterByContent sample_EP sample_SEASON sample_VIDEO_EXTENSIONS
    sample_extname sample_dirname_basename cfg.

Definition classify_all (cfg : ContentConfig) (l : list Searchee) :=
  filterAllByContent_run sample_EP sample_SEASON sample_VIDEO_EXTENSIONS
    sample_extname sample_dirname_basename cfg l.

Definition season_pack : Searchee :=
  mkSearchee "Show.S01.1080p"
    [mkFile "Show.S01E01.mkv" 700; mkFile "Show.S01E02.mkv" 710] None None.

Definition single_episode_torrent : Searchee :=
  mkSearchee "Show.S01E03.1080p" [mkFile "Show.S01E03.1080p.mkv" 700] None None.

Definition pack_member : Searchee :=
  mkSearchee "Show.S01E01.mkv" [mkFile "Show.S01E01.mkv" 700]
    (Some "/data/Show.S01.1080p/Show.S01E01.mkv") None.

Definition album : Searchee :=
  mkSearchee "Artist - Album" [mkFile "01.flac" 30; mkFile "cover.jpeg" 1] None None.

Definition movie : Searchee :=
  mkSearchee "Film.2019" [mkFile "Film.2019.mkv" 4000] None None.

Definition defaults : ContentConfig := mkContentConfig false false false.

Definition batch : list Searchee :=
  [season_pack; album; single_episode_torrent; movie; pack_member; album].

End ContentSamples.

(* ================================================================= *)
(** * Part II-c: notions for further properties *)
(* ================================================================= *)

Module Notions.

Import PreFilter Deluge.

(** The names of a list in the order in which each is first seen. *)
Fixpoint first_seen (l : list string) : list string :=
  match l with
  | [] => []
  | n :: rest => n :: filter (fun m => negb (m =? n)%string) (first_seen rest)
  end.

Definition mem (n : string) (l : list string) : bool := existsb (String.eqb n) l.

(** A searchee that carries an info hash. *)
Definition resolved (s : Searchee) : bool := truthy_ostr (infoHash s).

(** The searchee of name [n] that a list should keep: the first that
    carries an info hash, or else the first. *)
Definition survivor (n : string) (l : list Searchee) : option Searchee :=
  match find (fun s => has_name n s && resolved s) l with
  | Some s => Some s
  | None => find (has_name n) l
  end.

(** The operation [m] keeps [P] of the fields of the adapter, and every
    exchange it makes from a world with [P] has [Q]. *)
Definition maintains {Server A} (P : Fields -> Prop) (Q : Exchange -> Prop)
    (m : M Server A) : Prop :=
  forall w r w' l, P (this w) -> m w = (r, w', l) -> P (this w') /\ Forall Q l.

(** The counter of message ids is within its bounds. *)
Definition msgId_bounded (f : Fields) : Prop := 0 <= msgId f <= 1024.

Definition id_bounded (x : Exchange) : Prop := 1 <= req_id (fst x) <= 1025.

Definition is_loggedIn (f : Fields) : Prop := loggedIn f = true.

Definition not_auth (x : Exchange) : Prop :=
  req_method (fst x) <> "auth.login" /\ req_method (fst x) <> "auth.check_session".

Definition never_validated (f : Fields) : Prop := enLabeled f = None.

Definition not_label (x : Exchange) : Prop :=
  req_method (fst x) <> "label.set_torrent" /\ req_method (fst x) <> "label.add".

(** The client replies with an error whose message, if it has one,
    does not hold [word]. *)
Definition error_without (word : string) (o : option AxiosResponse) : bool :=
  match o with
  | Some r =>
      match data r with
      | VObj fields =>
          match lookup "error" fields with
          | VObj e =>
              negb (truthy (lookup "result" e))
              && match lookup "message" e with
                 | VStr m => negb (str_includes word m)
                 | VUndef => true
                 | _ => false
                 end
          | _ => false
          end
      | _ => false
      end
  | None => false
  end.

End Notions.

Module MoreSamples.

Import PreFilter Deluge Samples.

(** A client that refuses the password and then every call. *)
Definition refusing_serve (c : unit) (req : Request) : option AxiosResponse * unit :=
  if (req_method req =? "auth.login")%string
  then (reply (VBool false) VNull (req_id req) None, c)
  else (failed "Not authenticated" 1 req, c).

(** A URL with a user name and no password. *)
Definition cfg_without_password : Config :=
  mkConfig "admin" "" "http://localhost:8112" "cross-seed" false.

(** A counter of message ids at its upper bound. *)
Definition late_world : World Client :=
  mkWorld (mkFields 1024 true "_session_id=2f6d0b1c" (Some (Resolved true)))
          (mkClient [] []).

End MoreSamples.

(* ================================================================= *)
(** * Part III: properties of the pre-filter *)
(* ================================================================= *)

Module PreFilterFacts.

Import PreFilter.

(** ** The duplicate resolver *)

Lemma map_get_set_same k v m : map_get k (map_set k v m) = Some v.
Proof.
  induction m as [|[k' v'] m IH]; simpl.
  - now rewrite String.eqb_refl.
  - destruct (k =? k')%string eqn:E; simpl; rewrite E; auto.
Qed.

Lemma map_get_set_other k k' v m :
  k <> k' -> map_get k (map_set k' v m) = map_get k m.
Proof.
  intros Hne. induction m as [|[k2 v2] m IH]; simpl.
  - apply String.eqb_neq in Hne. now rewrite Hne.
  - destruct (k' =? k2)%string eqn:E; simpl.
    + apply String.eqb_eq in E. subst k2.
      apply String.eqb_neq in Hne. now rewrite Hne.
    + destruct (k =? k2)%string; auto.
Qed.

Lemma map_get_none_keys k m : map_get k m = None -> ~ In k (List.map fst m).
Proof.
  induction m as [|[k' v'] m IH]; simpl; intros H; [tauto|].
  destruct (k =? k')%string eqn:E; [discriminate|].
  apply String.eqb_neq in E. intros [H1 | H1]; [congruence | now apply IH].
Qed.

Lemma map_set_keys_absent k v m :
  map_get k m = None -> List.map fst (map_set k v m) = List.map fst m ++ [k].
Proof.
  induction m as [|[k' v'] m IH]; simpl; intros H; auto.
  destruct (k =? k')%string eqn:E; [discriminate|].
  simpl. now rewrite IH.
Qed.

Lemma map_set_keys_present k v e m :
  map_get k m = Some e -> List.map fst (map_set k v m) = List.map fst m.
Proof.
  induction m as [|[k' v'] m IH]; simpl; intros H; [discriminate|].
  destruct (k =? k')%string eqn:E; simpl; auto.
  now rewrite IH.
Qed.

Lemma map_set_Forall (P : string * Searchee -> Prop) k v m :
  P (k, v) -> (forall v', P (k, v') -> P (k, v)) -> Forall P m ->
  Forall P (map_set k v m).
Proof.
  intros Hk _ Hm. induction Hm as [|[k' v'] m Hx Hm IH]; simpl.
  - constructor; auto.
  - destruct (k =? k')%string eqn:E.
    + apply String.eqb_eq in E. subst k'. constructor; auto.
    + constructor; auto.
Qed.

Lemma keyed_set v m : keyed m -> keyed (map_set (name v) v m).
Proof.
  intros [Hnd Hall]. split.
  - destruct (map_get (name v) m) eqn:E.
    + now rewrite (map_set_keys_present _ _ _ _ E).
    + rewrite (map_set_keys_absent _ _ _ E).
      apply NoDup_rev in Hnd. rewrite <- (rev_involutive (_ ++ _)).
      apply NoDup_rev. rewrite rev_app_distr. simpl.
      constructor; auto. rewrite <- in_rev. now apply map_get_none_keys.
  - apply map_set_Forall; auto.
Qed.

Lemma keyed_step acc cur : keyed acc -> keyed (dupe_step acc cur).
Proof.
  intros H. unfold dupe_step.
  destruct (map_get (name cur) acc).
  - destruct (_ && _); auto using keyed_set.
  - now apply keyed_set.
Qed.

Lemma map_get_step n acc cur :
  map_get n (dupe_step acc cur) =
  if has_name n cur then pick (map_get n acc) cur else map_get n acc.
Proof.
  unfold dupe_step, has_name, pick.
  destruct (name cur =? n)%string eqn:E.
  - apply String.eqb_eq in E. subst n.
    destruct (map_get (name cur) acc) eqn:G.
    + destruct (_ && _); [apply map_get_set_same | exact G].
    + apply map_get_set_same.
  - apply String.eqb_neq in E.
    assert (n <> name cur) by congruence.
    destruct (map_get (name cur) acc).
    + destruct (_ && _); auto using map_get_set_other.
    + now apply map_get_set_other.
Qed.

Lemma map_get_fold n l : forall acc,
  map_get n (fold_left dupe_step l acc) =
  fold_left pick (filter (has_name n) l) (map_get n acc).
Proof.
  induction l as [|cur l IH]; intros acc; simpl; auto.
  rewrite IH, map_get_step. now destruct (has_name n cur).
Qed.

Lemma keyed_fold l : forall acc, keyed acc -> keyed (fold_left dupe_step l acc).
Proof.
  induction l as [|cur l IH]; intros acc H; simpl; auto using keyed_step.
Qed.

Lemma filter_absent n m :
  Forall (fun kv => name (snd kv) = fst kv) m -> ~ In n (List.map fst m) ->
  filter (has_name n) (map_values m) = [].
Proof.
  induction 1 as [|[k v] m Hx Hm IH]; simpl; intros Hn; auto.
  simpl in Hx. unfold has_name at 1. rewrite Hx.
  destruct (k =? n)%string eqn:E.
  - apply String.eqb_eq in E. tauto.
  - apply IH. tauto.
Qed.

Lemma values_of_name n m :
  keyed m ->
  filter (has_name n) (map_values m) =
  match map_get n m with Some v => [v] | None => [] end.
Proof.
  intros [Hnd Hall]. induction m as [|[k v] m IH]; simpl; auto.
  inversion Hnd as [|? ? Hk Hnd']; subst.
  inversion Hall as [|? ? Hx Hall']; subst. simpl in Hx.
  unfold has_name at 1. rewrite Hx, String.eqb_sym.
  destruct (n =? k)%string eqn:E.
  - apply String.eqb_eq in E. rewrite filter_absent; auto. now rewrite E.
  - now apply IH.
Qed.

(** ** The timestamp gate *)

Lemma fold_min_spec l : forall x,
  In (fold_left Z.min l x) (x :: l) /\
  (forall v, In v (x :: l) -> fold_left Z.min l x <= v).
Proof.
  induction l as [|y l IH]; intros x.
  - simpl. split; [auto|]. intros v [<- | []]. lia.
  - destruct (IH (Z.min x y)) as [Hin Hle].
    change (fold_left Z.min (y :: l) x) with (fold_left Z.min l (Z.min x y)).
    split.
    + destruct Hin as [Hin | Hin]; [|right; right; exact Hin].
      rewrite <- Hin. destruct (Z.min_spec x y) as [[_ ->] | [_ ->]];
        [left | right; left]; reflexivity.
    + pose proof (Hle (Z.min x y) (or_introl eq_refl)) as H0.
      intros v [<- | [<- | Hv]]; [lia | lia |].
      apply Hle. now right.
Qed.

Lemma sql_min_spec l :
  match sql_min l with
  | None => l = []
  | Some m => In m l /\ (forall v, In v l -> m <= v)
  end.
Proof.
  destruct l as [|x l]; simpl; auto. apply fold_min_spec.
Qed.

Lemma sql_min_const c l :
  (forall v, In v l -> v = c) -> sql_min l = None \/ sql_min l = Some c.
Proof.
  intros H. pose proof (sql_min_spec l) as S.
  destruct (sql_min l) as [m|]; auto.
  right. f_equal. apply H, S.
Qed.

Lemma never_searched_first db nm enabled :
  never_searched db nm enabled ->
  forall v, In v (List.map (coalesce first_searched INT64_MAX) (joined db nm enabled)) ->
    v = INT64_MAX.
Proof.
  intros H v Hv. apply in_map_iff in Hv. destruct Hv as [r [<- Hr]].
  unfold coalesce. destruct (snd r) as [t|] eqn:E; auto.
  destruct (H r t Hr E) as [-> _]. reflexivity.
Qed.

Lemma never_searched_last db nm enabled :
  never_searched db nm enabled ->
  forall v, In v (List.map (coalesce last_searched 0) (joined db nm enabled)) ->
    v = 0.
Proof.
  intros H v Hv. apply in_map_iff in Hv. destruct Hv as [r [<- Hr]].
  unfold coalesce. destruct (snd r) as [t|] eqn:E; auto.
  destruct (H r t Hr E) as [_ ->]. reflexivity.
Qed.

(** ** The claims *)

(** C9.  Of exactly two searchees of one name in the input, exactly one
    of which carries an infoHash, the output keeps exactly one searchee
    of that name: the one with the infoHash, whether it came first or
    second.  (The input may hold searchees of other names too.) *)
Theorem filterDupes_keeps_infoHash (l : list Searchee) (n : string) (x y : Searchee) :
  filter (has_name n) l = [x; y] ->
  xorb (truthy_ostr (infoHash x)) (truthy_ostr (infoHash y)) = true ->
  filter (has_name n) (filterDupes l)
  = [if truthy_ostr (infoHash x) then x else y].
Proof.
  intros Hl Hx. unfold filterDupes, duplicateMap.
  rewrite values_of_name.
  - rewrite map_get_fold, Hl. simpl.
    destruct (truthy_ostr (infoHash x)), (truthy_ostr (infoHash y));
      simpl in *; congruence.
  - apply keyed_fold. split; constructor.
Qed.

Lemma filterDupes_keeps_infoHash_witness :
  filterDupes [Samples.show_from_disk; Samples.other_film; Samples.show_from_client]
    = [Samples.show_from_client; Samples.other_film]
  /\ filter (has_name "Show.S01.1080p")
       (filterDupes [Samples.show_from_client; Samples.show_from_disk])
     = [Samples.show_from_client].
Proof.
  split.
  - reflexivity.
  - exact (filterDupes_keeps_infoHash
             [Samples.show_from_client; Samples.show_from_disk]
             "Show.S01.1080p" Samples.show_from_client Samples.show_from_disk
             eq_refl eq_refl).
Defined.

(** C4, as the specification states it, fails: with two enabled
    indexers last searched at 100 and at 200 the aggregate of the query
    is 100, not the latest, 200. *)
Lemma last_searched_all_not_latest :
  last_searched_all (timestampDataSql Samples.db_searched_twice "Show.S01.1080p" [1; 2])
    = Some 100
  /\ spec_last_searched_all Samples.db_searched_twice "Show.S01.1080p" [1; 2] = 200
  /\ last_searched_all (timestampDataSql Samples.db_searched_twice "Show.S01.1080p" [1; 2])
     <> Some (spec_last_searched_all Samples.db_searched_twice "Show.S01.1080p" [1; 2]).
Proof.
  split; [reflexivity | split; [reflexivity | discriminate]].
Qed.

(** C4, amended.  [last_searched_all] is the earliest (minimum) over the
    joined rows of the enabled indexers of the last-search timestamp,
    an indexer never searched counting as zero; it is NULL only when
    the join is empty.  The "exclude recent" rule compares against that
    minimum: with no "exclude older" window, the searchee is eligible
    exactly when the minimum is NULL, zero, or not newer than
    now-minus-the-duration. *)
Theorem last_searched_all_is_earliest
    (cfg : RuntimeConfig) (db : Db) (enabled : list Z) (now : Z) (s : Searchee) :
  let vals := List.map (coalesce last_searched 0) (joined db (name s) enabled) in
  match last_searched_all (timestampDataSql db (name s) enabled) with
  | None =>
      joined db (name s) enabled = []
      /\ (excludeOlder cfg = None -> filterTimestamps cfg db enabled now s = true)
  | Some m =>
      In m vals /\ (forall v, In v vals -> m <= v)
      /\ (forall d, excludeOlder cfg = None -> excludeRecentSearch cfg = Some d ->
            filterTimestamps cfg db enabled now s
            = negb (negb (m =? 0) && (m >? nMsAgo now d)))
  end.
Proof.
  intros vals. unfold filterTimestamps, older_rule, recent_rule.
  pose proof (sql_min_spec vals) as S. subst vals.
  change (last_searched_all (timestampDataSql db (name s) enabled))
    with (sql_min (List.map (coalesce last_searched 0) (joined db (name s) enabled))).
  destruct (sql_min (List.map (coalesce last_searched 0) (joined db (name s) enabled)))
    as [m|] eqn:E.
  - destruct S as [S1 S2]. split; [exact S1 | split; [exact S2 |]].
    intros d Ho Hr. rewrite Ho, Hr. simpl.
    now destruct (negb (m =? 0) && (m >? nMsAgo now d)).
  - split.
    + now apply map_eq_nil in S.
    + intros Ho. rewrite Ho. simpl.
      destruct (excludeRecentSearch cfg); reflexivity.
Qed.

Lemma last_searched_all_is_earliest_witness :
  last_searched_all (timestampDataSql Samples.db_searched_twice "Show.S01.1080p" [1; 2])
    = Some 100
  /\ filterTimestamps (mkRuntimeConfig None (Some 50)) Samples.db_searched_twice [1; 2]
       120 Samples.show_from_disk
     = negb (negb (100 =? 0) && (100 >? nMsAgo 120 50)).
Proof.
  split; [reflexivity|].
  pose proof (last_searched_all_is_earliest (mkRuntimeConfig None (Some 50))
                Samples.db_searched_twice [1; 2] 120 Samples.show_from_disk) as H.
  cbv zeta in H.
  change (last_searched_all
            (timestampDataSql Samples.db_searched_twice (name Samples.show_from_disk) [1; 2]))
    with (Some 100) in H.
  destruct H as (_ & _ & H). exact (H 50 eq_refl eq_refl).
Defined.

(** C8.  A searchee never searched on any enabled indexer is eligible,
    whatever windows are configured; a window is a duration, hence not
    negative, and the clock is a time the database can hold. *)
Theorem filterTimestamps_never_searched
    (cfg : RuntimeConfig) (db : Db) (enabled : list Z) (now : Z) (s : Searchee) :
  never_searched db (name s) enabled ->
  (forall d, excludeOlder cfg = Some d -> 0 <= d) ->
  now <= INT64_MAX ->
  filterTimestamps cfg db enabled now s = true.
Proof.
  intros Hn Hd Hnow. unfold filterTimestamps, older_rule, recent_rule.
  unfold timestampDataSql. simpl.
  destruct (sql_min_const INT64_MAX _ (never_searched_first _ _ _ Hn)) as [-> | ->];
  destruct (sql_min_const 0 _ (never_searched_last _ _ _ Hn)) as [-> | ->];
  simpl; destruct (excludeOlder cfg) as [d|] eqn:Ed;
  destruct (excludeRecentSearch cfg) as [e|]; simpl; auto.
  all: specialize (Hd d eq_refl); unfold nMsAgo;
    replace (INT64_MAX <? now - d) with false; auto;
    symmetry; apply Z.ltb_ge; lia.
Qed.

Lemma never_searched_sample :
  never_searched Samples.db_unsearched "Show.S01.1080p" [1; 2].
Proof.
  intros r t Hr Ht. vm_compute in Hr.
  destruct Hr as [<- | [<- | []]]; discriminate.
Defined.

Lemma filterTimestamps_never_searched_witness :
  filterTimestamps Samples.cfg_windows Samples.db_unsearched [1; 2]
    Samples.sample_now Samples.show_from_disk = true.
Proof.
  apply filterTimestamps_never_searched.
  - exact never_searched_sample.
  - intros d H. injection H as <-. vm_compute. discriminate.
  - vm_compute. discriminate.
Defined.

End PreFilterFacts.

(* ================================================================= *)
(** * Part IV: properties of the Deluge adapter *)
(* ================================================================= *)

Module DelugeFacts.

Import PreFilter Deluge.

Section Facts.

Variable Server : Type.
Variable serve : Server -> Request -> option AxiosResponse * Server.
Variable cfg : Config.

(** ** Running a sequence *)

Lemma bind_inv {A B} (m : M Server A) (f : A -> M Server B) w r w' l :
  bind m f w = (r, w', l) ->
  (exists a w1 l1 l2,
      m w = (Ret a, w1, l1) /\ f a w1 = (r, w', l2) /\ l = l1 ++ l2)
  \/ (exists e, m w = (Throw e, w', l) /\ r = Throw e).
Proof.
  unfold bind. destruct (m w) as [[[a|e] w1] l1].
  - destruct (f a w1) as [[r2 w2] l2] eqn:E. intros H. inversion H; subst.
    left. exists a, w1, l1, l2. auto.
  - intros H. inversion H; subst. right. exists e. auto.
Qed.

Lemma bind_ret {A B} (m : M Server A) (f : A -> M Server B) w a w1 l1 :
  m w = (Ret a, w1, l1) ->
  bind m f w = (fst (fst (f a w1)), snd (fst (f a w1)), l1 ++ snd (f a w1)).
Proof.
  intros H. unfold bind. rewrite H. now destruct (f a w1) as [[r2 w2] l2].
Qed.

Lemma bind_throw {A B} (m : M Server A) (f : A -> M Server B) w e w1 l1 :
  m w = (Throw e, w1, l1) -> bind m f w = (Throw e, w1, l1).
Proof.
  intros H. unfold bind. now rewrite H.
Qed.

(** ** [call] *)

Lemma call_eq method params w :
  call serve method params w
  = (Ret (reply_of serve w method params), after_call serve w method params,
     [(request_of w method params, reply_of serve w method params)]).
Proof.
  unfold call, reply_of, after_call, request_of, next_id.
  now destruct (serve _ _).
Qed.

(** ** [authenticate] *)

Lemma authenticate_loggedIn w :
  loggedIn (this w) = true ->
  let params := [VStr (delugeCookie (this w))] in
  let resp := reply_of serve w "auth.check_session" params in
  let w1 := after_call serve w "auth.check_session" params in
  authenticate serve cfg w
  = (Ret (is_some resp),
     mkWorld (mkFields (msgId (this w1)) (is_some resp)
                       (delugeCookie (this w1)) (enLabeled (this w1)))
             (server w1),
     [(request_of w "auth.check_session" params, resp)]).
Proof.
  intros H. unfold authenticate, bind, get_this. rewrite H. simpl.
  rewrite call_eq. reflexivity.
Qed.

Lemma authenticate_loggedOut w :
  loggedIn (this w) = false ->
  exists r w',
    authenticate serve cfg w
    = (r, w', [(request_of w "auth.login" [VStr (url_password cfg)],
                reply_of serve w "auth.login" [VStr (url_password cfg)])])
    /\ enLabeled (this w') = enLabeled (this w)
    /\ (reply_of serve w "auth.login" [VStr (url_password cfg)] = None ->
        r = Throw (CrossSeedError ("Could not reach deluge: " ++ url_origin cfg)%string)).
Proof.
  intros H. unfold authenticate, bind, get_this. rewrite H. simpl.
  rewrite call_eq.
  destruct (reply_of serve w "auth.login" [VStr (url_password cfg)]) as [r|].
  - unfold lift. destruct (get (data r) "result") as [res|e]; simpl.
    + destruct (truthy res); simpl.
      * destruct (set_cookie (headers r)) as [[|c cs]|]; simpl;
          eexists; eexists; (split; [reflexivity | split; [reflexivity | discriminate]]).
      * eexists; eexists; (split; [reflexivity | split; [reflexivity | discriminate]]).
    + eexists; eexists; (split; [reflexivity | split; [reflexivity | discriminate]]).
  - simpl. eexists; eexists; (split; [reflexivity | split; [reflexivity | auto]]).
Qed.

(** ** [sendCall] *)

Lemma sendCall_loggedIn method params w :
  loggedIn (this w) = true ->
  sendCall serve cfg method params w
  = (sendCall_return (reply_of serve w method params),
     after_call serve w method params,
     [(request_of w method params, reply_of serve w method params)]).
Proof.
  intros H. unfold sendCall, bind, get_this. rewrite H. simpl.
  rewrite call_eq. unfold lift.
  now destruct (sendCall_return _).
Qed.

Lemma sendCall_loggedOut method params w ra wa la :
  loggedIn (this w) = false ->
  authenticate serve cfg w = (ra, wa, la) ->
  sendCall serve cfg method params w
  = match ra with
    | Ret _ =>
        (sendCall_return (reply_of serve wa method params),
         after_call serve wa method params,
         la ++ [(request_of wa method params, reply_of serve wa method params)])
    | Throw e => (Throw e, wa, la)
    end.
Proof.
  intros H Ha. unfold sendCall, bind, get_this. rewrite H. simpl.
  rewrite Ha. destruct ra as [b|e]; [|reflexivity].
  rewrite call_eq. unfold lift. rewrite app_nil_r.
  now destruct (sendCall_return _).
Qed.

Lemma after_call_enLabeled w method params :
  enLabeled (this (after_call serve w method params)) = enLabeled (this w).
Proof. reflexivity. Qed.

Lemma after_call_loggedIn w method params :
  loggedIn (this (after_call serve w method params)) = loggedIn (this w).
Proof. reflexivity. Qed.

(** What one [sendCall] puts on the wire: at most a login, then the
    call itself, whose reply decides the result. *)
Lemma sendCall_shape method params w r w' l :
  sendCall serve cfg method params w = (r, w', l) ->
  enLabeled (this w') = enLabeled (this w)
  /\ ((exists pre w1,
         l = pre ++ [(request_of w1 method params, reply_of serve w1 method params)]
         /\ methods_in ["auth.login"] pre /\ (List.length pre <= 1)%nat
         /\ r = sendCall_return (reply_of serve w1 method params))
      \/ (methods_in ["auth.login"] l /\ (List.length l <= 1)%nat
          /\ loggedIn (this w) = false /\ exists e, r = Throw e)).
Proof.
  intros H. destruct (loggedIn (this w)) eqn:L.
  - rewrite (sendCall_loggedIn _ _ _ L) in H. inversion H; subst. split; auto.
    left. exists [], w. repeat split; auto. constructor.
  - destruct (authenticate_loggedOut w L) as (ra & wa & Ha & Hen & _).
    rewrite (sendCall_loggedOut _ _ _ _ _ _ L Ha) in H.
    assert (Hpre : methods_in ["auth.login"]
              [(request_of w "auth.login" [VStr (url_password cfg)],
                reply_of serve w "auth.login" [VStr (url_password cfg)])]).
    { constructor; [simpl; auto | constructor]. }
    destruct ra as [b|e]; inversion H; subst.
    + split; [exact Hen|]. left.
      exists [(request_of w "auth.login" [VStr (url_password cfg)],
               reply_of serve w "auth.login" [VStr (url_password cfg)])], wa.
      repeat split; auto.
    + split; [exact Hen|]. right. repeat split; auto. now exists e.
Qed.

Lemma methods_in_app ms l1 l2 :
  methods_in ms l1 -> methods_in ms l2 -> methods_in ms (l1 ++ l2).
Proof. intros H1 H2. apply Forall_app. now split. Qed.

Lemma methods_in_incl ms ms' l :
  incl ms ms' -> methods_in ms l -> methods_in ms' l.
Proof.
  intros Hi H. eapply Forall_impl; [|exact H]. intros x Hx. now apply Hi.
Qed.

Lemma methods_in_nil ms : methods_in ms [].
Proof. constructor. Qed.

Lemma sendCall_methods method params w r w' l :
  sendCall serve cfg method params w = (r, w', l) ->
  methods_in ["auth.login"; method] l.
Proof.
  intros H. apply sendCall_shape in H.
  destruct H as [_ [(pre & w1 & -> & Hp & _) | (Hl & _)]].
  - apply methods_in_app.
    + eapply methods_in_incl; [|exact Hp]. intros x [<-|[]]; simpl; auto.
    + constructor; [simpl; auto | constructor].
  - eapply methods_in_incl; [|exact Hl]. intros x [<-|[]]; simpl; auto.
Qed.

(** The reply to the call itself decides what [sendCall] returns. *)
Lemma sendCall_exchange method params w r w' l x :
  sendCall serve cfg method params w = (r, w', l) ->
  method <> "auth.login" ->
  In x l -> req_method (fst x) = method ->
  r = sendCall_return (snd x).
Proof.
  intros H Hm Hx Hxm. apply sendCall_shape in H.
  destruct H as [_ [(pre & w1 & -> & Hp & _ & ->) | (Hl & _)]].
  - apply in_app_or in Hx. destruct Hx as [Hx | [<- | []]]; [|reflexivity].
    unfold methods_in in Hp. rewrite Forall_forall in Hp.
    specialize (Hp x Hx). simpl in Hp. destruct Hp as [Hp | []]. congruence.
  - unfold methods_in in Hl. rewrite Forall_forall in Hl.
    specialize (Hl x Hx). simpl in Hl. destruct Hl as [Hl | []]. congruence.
Qed.

(** ** [checkCompleted] *)

(** The handler of [checkCompleted] always throws: it reads a property
    of [undefined]. *)
Lemma checkCompleted_eq infohash w :
  checkCompleted serve cfg infohash w
  = match sendCall serve cfg "web.update_ui" update_ui_params w with
    | (Ret v, w1, l1) =>
        (match state_of v infohash with
         | Ret state => if is_Seeding state then Ret (Some true) else Ret None
         | Throw _ => Throw TypeError
         end, w1, l1)
    | (Throw _, w1, l1) => (Throw TypeError, w1, l1)
    end.
Proof.
  unfold checkCompleted, try_catch, bind, lift.
  destruct (sendCall serve cfg "web.update_ui" update_ui_params w)
    as [[[v|e] w1] l1]; simpl.
  - destruct (state_of v infohash) as [state|e]; simpl.
    + destruct (is_Seeding state); simpl; now rewrite app_nil_r.
    + now rewrite !app_nil_r.
  - now rewrite app_nil_r.
Qed.

Lemma checkCompleted_methods infohash w r w' l :
  checkCompleted serve cfg infohash w = (r, w', l) ->
  methods_in ["auth.login"; "web.update_ui"] l.
Proof.
  rewrite checkCompleted_eq.
  destruct (sendCall serve cfg "web.update_ui" update_ui_params w)
    as [[rs w1] l1] eqn:E.
  apply sendCall_methods in E.
  destruct rs; intros H; inversion H; subst; exact E.
Qed.

(** ** Which methods an operation calls *)

Lemma speaks_bind {A B} ms (m : M Server A) (f : A -> M Server B) :
  speaks ms m -> (forall a, speaks ms (f a)) -> speaks ms (bind m f).
Proof.
  intros Hm Hf w r w' l H. apply bind_inv in H.
  destruct H as [(a & w1 & l1 & l2 & H1 & H2 & ->) | (e & H1 & ->)].
  - apply methods_in_app; [eapply Hm | eapply Hf]; eassumption.
  - eapply Hm; eassumption.
Qed.

Lemma speaks_silent {A} ms (m : M Server A) :
  (forall w, snd (m w) = []) -> speaks ms m.
Proof.
  intros Hs w r w' l H. specialize (Hs w). rewrite H in Hs. simpl in Hs.
  subst l. apply methods_in_nil.
Qed.

Lemma speaks_ret {A} ms (a : A) : speaks ms (@ret Server A a).
Proof. now apply speaks_silent. Qed.

Lemma speaks_throw {A} ms e : speaks ms (@throw Server A e).
Proof. now apply speaks_silent. Qed.

Lemma speaks_lift {A} ms (r : Result A) : speaks ms (@lift Server A r).
Proof. now apply speaks_silent. Qed.

Lemma speaks_get_this ms : speaks ms (@get_this Server).
Proof. now apply speaks_silent. Qed.

Lemma speaks_spawn {A} ms (m : M Server A) : speaks ms m -> speaks ms (spawn m).
Proof.
  intros Hm w r w' l H. unfold spawn in H.
  destruct (m w) as [[[a|e] w1] l1] eqn:E; inversion H; subst;
    eapply Hm; eassumption.
Qed.

Lemma speaks_sendCall ms method params :
  In "auth.login" ms -> In method ms ->
  speaks ms (sendCall serve cfg method params).
Proof.
  intros H1 H2 w r w' l H. apply sendCall_methods in H.
  eapply methods_in_incl; [|exact H]. intros x [<- | [<- | []]]; auto.
Qed.

Lemma speaks_checkCompleted infohash :
  speaks ["auth.login"; "web.update_ui"] (checkCompleted serve cfg infohash).
Proof.
  intros w r w' l H. eapply checkCompleted_methods; eassumption.
Qed.

Ltac speaks_step :=
  first
    [ apply speaks_ret | apply speaks_throw | apply speaks_lift
    | apply speaks_get_this
    | apply speaks_sendCall; simpl; tauto
    | apply speaks_bind; [|intros ?] ].

Lemma speaks_setLabel torrenthash :
  speaks label_methods (setLabel serve cfg torrenthash).
Proof.
  unfold setLabel, label_methods. speaks_step; [speaks_step|].
  destruct (enLabeled a); [|speaks_step].
  repeat speaks_step.
  destruct a2; repeat speaks_step.
Qed.

(** ** [inject] *)

Lemma speaks_inject_reply newTorrent addResult :
  speaks label_methods (inject_reply serve cfg newTorrent addResult).
Proof.
  unfold inject_reply. speaks_step; [speaks_step|].
  destruct (truthy a).
  - speaks_step; [|speaks_step]. apply speaks_spawn, speaks_setLabel.
  - repeat speaks_step. destruct a1; speaks_step.
Qed.

Lemma inject_reply_success newTorrent addResult result w :
  get addResult "result" = Ret result -> truthy result = true ->
  fst (fst (inject_reply serve cfg newTorrent addResult w)) = Ret SUCCESS.
Proof.
  intros Hg Ht. unfold inject_reply, bind, lift. rewrite Hg, Ht.
  unfold spawn. destruct (setLabel _ _ _ _) as [[[b|e] w1] l1]; reflexivity.
Qed.

Lemma inject_reply_already newTorrent addResult result message w :
  get addResult "result" = Ret result -> truthy result = false ->
  get addResult "message" = Ret message ->
  truthy_and_includes message "already" = Ret true ->
  inject_reply serve cfg newTorrent addResult w = (Ret ALREADY_EXISTS, w, []).
Proof.
  intros Hg Ht Hm Hi. unfold inject_reply, bind, lift.
  now rewrite Hg, Ht, Hm, Hi.
Qed.

Lemma not_in_methods ms l x :
  methods_in ms l -> ~ In (req_method (fst x)) ms -> ~ In x l.
Proof.
  intros H Hn Hx. unfold methods_in in H. rewrite Forall_forall in H. auto.
Qed.

Lemma add_not_label : ~ In "core.add_torrent_file" label_methods.
Proof. unfold label_methods. simpl. intuition discriminate. Qed.

Lemma add_not_check : ~ In "core.add_torrent_file" ["auth.login"; "web.update_ui"].
Proof. simpl. intuition discriminate. Qed.

Lemma sendCall_return_accepts o :
  accepts o = true ->
  exists v result,
    sendCall_return o = Ret v /\ get v "result" = Ret result /\ truthy result = true.
Proof.
  destruct o as [[d h]|]; simpl; [|discriminate].
  destruct d; try discriminate. simpl.
  intros H. apply andb_true_iff in H. destruct H as [Hn Ht].
  rewrite Hn. eexists; eexists. split; [reflexivity|]. simpl. auto.
Qed.

Lemma sendCall_return_error word o :
  word <> "" ->
  error_with word o = true ->
  exists v result message,
    sendCall_return o = Ret v /\ get v "result" = Ret result /\ truthy result = false
    /\ get v "message" = Ret message
    /\ truthy_and_includes message word = Ret true.
Proof.
  intros Hw. destruct o as [[d h]|]; simpl; [|discriminate].
  destruct d; try discriminate. simpl.
  destruct (lookup "error" fields) as [| | | | |items|e] eqn:E; try discriminate.
  simpl. intros H. apply andb_true_iff in H. destruct H as [Hr Hm].
  destruct (lookup "message" e) as [| | | |m| |] eqn:Em; try discriminate.
  exists (VObj e), (lookup "result" e), (VStr m).
  split; [reflexivity|]. split; [reflexivity|].
  split; [now apply negb_true_iff|].
  split; [simpl; now rewrite Em|].
  unfold truthy_and_includes. destruct m as [|c m]; simpl.
  - destruct word; [congruence | discriminate].
  - simpl in Hm. now rewrite Hm.
Qed.

(** The reply to the submission decides the outcome. *)
Lemma submit_exchange newTorrent path w r w' l x :
  inject_submit serve cfg newTorrent path w = (r, w', l) ->
  In x l -> req_method (fst x) = "core.add_torrent_file" ->
  (accepts (snd x) = true -> r = Ret SUCCESS)
  /\ (error_with "already" (snd x) = true -> r = Ret ALREADY_EXISTS).
Proof.
  unfold inject_submit. intros H Hx Hm.
  apply bind_inv in H.
  destruct H as [(a & w1 & l1 & l2 & H1 & H2 & ->) | (e & H1 & ->)].
  - assert (Hx1 : In x l1).
    { apply in_app_or in Hx. destruct Hx as [Hx | Hx]; [exact Hx|].
      exfalso. apply speaks_inject_reply in H2.
      apply (not_in_methods _ _ x H2); [|exact Hx].
      rewrite Hm. apply add_not_label. }
    pose proof (sendCall_exchange _ _ _ _ _ _ x H1 ltac:(discriminate) Hx1 Hm) as Hr.
    split; intros Hk.
    + destruct (sendCall_return_accepts _ Hk) as (v & res & Hv & Hg & Ht).
      rewrite Hv in Hr. injection Hr as ->.
      pose proof (inject_reply_success newTorrent v res w1 Hg Ht) as Hs.
      rewrite H2 in Hs. exact Hs.
    + destruct (sendCall_return_error "already" _ ltac:(discriminate) Hk)
        as (v & res & msg & Hv & Hg & Ht & Hmsg & Hi).
      rewrite Hv in Hr. injection Hr as ->.
      rewrite (inject_reply_already newTorrent v res msg w1 Hg Ht Hmsg Hi) in H2.
      now inversion H2.
  - pose proof (sendCall_exchange _ _ _ _ _ _ x H1 ltac:(discriminate) Hx Hm) as Hr.
    split; intros Hk.
    + destruct (sendCall_return_accepts _ Hk) as (v & res & Hv & _).
      congruence.
    + destruct (sendCall_return_error "already" _ ltac:(discriminate) Hk)
        as (v & res & msg & Hv & _).
      congruence.
Qed.

Lemma speaks_inject_notComplete searchee :
  speaks ["auth.login"; "web.update_ui"] (inject_notComplete serve cfg searchee).
Proof.
  unfold inject_notComplete. destruct (infoHash searchee) as [h|]; [|speaks_step].
  destruct (truthy_ostr (Some h)); [|speaks_step].
  speaks_step; [apply speaks_checkCompleted | speaks_step].
Qed.

Lemma inject_exchange newTorrent searchee path w r w' l x :
  inject serve cfg newTorrent searchee path w = (r, w', l) ->
  In x l -> req_method (fst x) = "core.add_torrent_file" ->
  (accepts (snd x) = true -> r = Ret SUCCESS)
  /\ (error_with "already" (snd x) = true -> r = Ret ALREADY_EXISTS).
Proof.
  unfold inject. intros H Hx Hm.
  apply bind_inv in H.
  destruct H as [(a & w1 & l1 & l2 & H1 & H2 & ->) | (e & H1 & ->)].
  - apply speaks_inject_notComplete in H1.
    apply in_app_or in Hx. destruct Hx as [Hx | Hx].
    + exfalso. apply (not_in_methods _ _ x H1); [|exact Hx].
      rewrite Hm. apply add_not_check.
    + destruct a.
      * inversion H2; subst. destruct Hx.
      * eapply submit_exchange; eassumption.
  - exfalso. apply speaks_inject_notComplete in H1.
    apply (not_in_methods _ _ x H1); [|exact Hx].
    rewrite Hm. apply add_not_check.
Qed.

(** ** The claims *)

(** C1.  Inject the same torrent twice: if the client accepts the
    submission of the first call and answers the submission of the
    second with an error whose message says "already", the first call
    returns SUCCESS and the second returns ALREADY_EXISTS, both as
    values. *)
Theorem inject_twice newTorrent searchee path w0 r1 w1 l1 r2 w2 l2 :
  inject serve cfg newTorrent searchee path w0 = (r1, w1, l1) ->
  inject serve cfg newTorrent searchee path w1 = (r2, w2, l2) ->
  (exists x, In x l1 /\ req_method (fst x) = "core.add_torrent_file"
             /\ accepts (snd x) = true) ->
  (exists y, In y l2 /\ req_method (fst y) = "core.add_torrent_file"
             /\ error_with "already" (snd y) = true) ->
  r1 = Ret SUCCESS /\ r2 = Ret ALREADY_EXISTS.
Proof.
  intros H1 H2 (x & Hx & Hxm & Hxa) (y & Hy & Hym & Hya). split.
  - now apply (inject_exchange _ _ _ _ _ _ _ x H1 Hx Hxm).
  - now apply (inject_exchange _ _ _ _ _ _ _ y H2 Hy Hym).
Qed.

(** C3.  The searchee carries an info hash and the client, asked for
    the state of the torrents, reports for that hash a state that is not
    "Seeding": [inject] returns TORRENT_NOT_COMPLETE, having made the
    requests of that one question and no submission. *)
Theorem inject_not_complete newTorrent searchee path w h v state w1 l1 :
  infoHash searchee = Some h -> h <> "" ->
  sendCall serve cfg "web.update_ui" update_ui_params w = (Ret v, w1, l1) ->
  state_of v h = Ret state ->
  is_Seeding state = false ->
  inject serve cfg newTorrent searchee path w = (Ret TORRENT_NOT_COMPLETE, w1, l1)
  /\ with_method "core.add_torrent_file" l1 = [].
Proof.
  intros Hh Hne Hs Hst Hse. split.
  - unfold inject, inject_notComplete, bind. rewrite Hh. simpl.
    apply String.eqb_neq in Hne. rewrite Hne. simpl.
    rewrite checkCompleted_eq, Hs, Hst, Hse. simpl.
    now rewrite !app_nil_r.
  - apply sendCall_methods in Hs. unfold with_method, methods_in in *.
    induction Hs as [|x l Hx Hl IH]; simpl; auto.
    destruct Hx as [Hx | [Hx | []]]; rewrite <- Hx; simpl; exact IH.
Qed.

(** ** A client that answers in the envelope of the protocol *)

Section Answering.

Hypothesis answers :
  forall s req, exists resp, fst (serve s req) = Some resp /\ envelope resp = true.

Lemma reply_answers w method params :
  exists resp, reply_of serve w method params = Some resp /\ envelope resp = true.
Proof. apply answers. Qed.

Lemma envelope_return resp :
  envelope resp = true ->
  exists fields,
    sendCall_return (Some resp) = Ret (VObj fields)
    /\ undef_or_str (lookup "message" fields) = true.
Proof.
  unfold envelope, sendCall_return. intros H.
  apply andb_true_iff in H. destruct H as [H _].
  destruct (data resp) as [| | | | | |fields]; try discriminate. simpl.
  destruct (lookup "error" fields) as [| | | | | |e]; try discriminate; simpl.
  - now exists fields.
  - now exists e.
Qed.

Lemma authenticate_answered w :
  loggedIn (this w) = false ->
  exists b wa la, authenticate serve cfg w = (Ret b, wa, la).
Proof.
  intros H. unfold authenticate, bind, get_this. rewrite H. simpl.
  rewrite call_eq.
  destruct (reply_answers w "auth.login" [VStr (url_password cfg)]) as (r & -> & He).
  unfold envelope in He. apply andb_true_iff in He. destruct He as [Hd Hc].
  destruct (data r) as [| | | | | |fields]; try discriminate. simpl.
  destruct (truthy (lookup "result" fields)); simpl; [|now eexists; eexists; eexists].
  destruct (set_cookie (headers r)) as [[|c cs]|]; try discriminate; simpl;
    now eexists; eexists; eexists.
Qed.

Lemma sendCall_answered method params w :
  exists w1 w' l,
    sendCall serve cfg method params w
    = (sendCall_return (reply_of serve w1 method params), w', l).
Proof.
  destruct (loggedIn (this w)) eqn:L.
  - rewrite (sendCall_loggedIn _ _ _ L). now eexists; eexists; eexists.
  - destruct (authenticate_answered w L) as (b & wa & la & Ha).
    rewrite (sendCall_loggedOut _ _ _ _ _ _ L Ha). now eexists; eexists; eexists.
Qed.

Lemma inject_reply_returns newTorrent fields w :
  undef_or_str (lookup "message" fields) = true ->
  exists r, fst (fst (inject_reply serve cfg newTorrent (VObj fields) w)) = Ret r.
Proof.
  intros Hm. unfold inject_reply, bind, lift. simpl.
  destruct (truthy (lookup "result" fields)).
  - unfold spawn. destruct (setLabel _ _ _ _) as [[[b|e] w1] l1]; now eexists.
  - destruct (lookup "message" fields) as [| | | |m| |]; try discriminate.
    + simpl. now eexists.
    + unfold truthy_and_includes. simpl.
      destruct (negb (m =? "")%string); simpl; [|now eexists].
      destruct (str_includes "already" m); now eexists.
Qed.

Lemma inject_submit_returns newTorrent path w :
  exists r, fst (fst (inject_submit serve cfg newTorrent path w)) = Ret r.
Proof.
  unfold inject_submit.
  destruct (sendCall_answered "core.add_torrent_file"
              (formatData cfg (meta_name newTorrent ++ ".cross-seed.torrent")%string
                 (encoded_base64 newTorrent) path) w) as (w1 & w' & l & Hs).
  destruct (reply_answers w1 "core.add_torrent_file"
              (formatData cfg (meta_name newTorrent ++ ".cross-seed.torrent")%string
                 (encoded_base64 newTorrent) path)) as (resp & Hr & He).
  rewrite Hr in Hs. destruct (envelope_return resp He) as (fields & Hv & Hm).
  rewrite Hv in Hs. rewrite (bind_ret _ _ _ _ _ _ Hs). simpl.
  apply inject_reply_returns, Hm.
Qed.

Lemma checkCompleted_returns h w :
  (forall s req, req_method req = "web.update_ui" ->
     exists resp, fst (serve s req) = Some resp /\ reports_state h resp = true) ->
  exists c, fst (fst (checkCompleted serve cfg h w)) = Ret c.
Proof.
  intros Hst. rewrite checkCompleted_eq.
  destruct (sendCall_answered "web.update_ui" update_ui_params w)
    as (w1 & w' & l & Hs).
  rewrite Hs.
  destruct (Hst (server w1) (request_of w1 "web.update_ui" update_ui_params) eq_refl)
    as (resp & Hr & Hrep).
  unfold reply_of. rewrite Hr.
  unfold reports_state in Hrep. unfold sendCall_return.
  destruct (data resp) as [| | | | | |fields] eqn:Ed; try discriminate.
  apply andb_true_iff in Hrep. destruct Hrep as [Hn Hs'].
  simpl. rewrite Hn.
  destruct (state_of (VObj fields) h) as [state|e]; [|discriminate].
  simpl. destruct (is_Seeding state); now eexists.
Qed.

End Answering.

Lemma four_results (r : InjectionResult) :
  In r [SUCCESS; ALREADY_EXISTS; TORRENT_NOT_COMPLETE; FAILURE].
Proof. destruct r; simpl; auto. Qed.

(** C2, amended.  When the client answers every request in the envelope
    of the protocol and, asked for the torrents, tells the state of the
    info hash the searchee carries, [inject] returns one of the four
    results as a value.  When the session is not logged in, the
    searchee carries no info hash and the login gets no response,
    [inject] does not return a result: it aborts with the error that
    the client could not be reached. *)
Theorem inject_returns_or_aborts newTorrent searchee path w :
  ((forall s req, exists resp, fst (serve s req) = Some resp /\ envelope resp = true) ->
   (forall h, infoHash searchee = Some h ->
      forall s req, req_method req = "web.update_ui" ->
        exists resp, fst (serve s req) = Some resp /\ reports_state h resp = true) ->
   exists r,
     fst (fst (inject serve cfg newTorrent searchee path w)) = Ret r
     /\ In r [SUCCESS; ALREADY_EXISTS; TORRENT_NOT_COMPLETE; FAILURE])
  /\ (loggedIn (this w) = false ->
      truthy_ostr (infoHash searchee) = false ->
      reply_of serve w "auth.login" [VStr (url_password cfg)] = None ->
      fst (fst (inject serve cfg newTorrent searchee path w))
      = Throw (CrossSeedError ("Could not reach deluge: " ++ url_origin cfg)%string)).
Proof.
  split.
  - intros Ha Hst.
    assert (Hsub : forall w0, exists r,
               fst (fst (inject_submit serve cfg newTorrent path w0)) = Ret r).
    { intros w0. now apply inject_submit_returns. }
    assert (Hgo : forall w0 l0, exists r,
               fst (fst (let '(r, w2, l2) := inject_submit serve cfg newTorrent path w0
                         in (r, w2, l0 ++ l2))) = Ret r
               /\ In r [SUCCESS; ALREADY_EXISTS; TORRENT_NOT_COMPLETE; FAILURE]).
    { intros w0 l0. destruct (Hsub w0) as (r & Hr).
      destruct (inject_submit serve cfg newTorrent path w0) as [[r' w2] l2].
      exists r. split; [exact Hr | apply four_results]. }
    unfold inject, inject_notComplete, bind.
    destruct (infoHash searchee) as [h|] eqn:Hh; [|apply (Hgo w [])].
    destruct (truthy_ostr (Some h)); [|apply (Hgo w [])].
    destruct (checkCompleted_returns Ha h w (Hst h eq_refl)) as (c & Hc).
    destruct (checkCompleted serve cfg h w) as [[rc wc] lc].
    simpl in Hc. subst rc. simpl.
    destruct (negb (truthy_obool c)); simpl.
    + exists TORRENT_NOT_COMPLETE. split; [reflexivity | apply four_results].
    + rewrite app_nil_r. apply (Hgo wc lc).
  - intros L Hh Hnone.
    destruct (authenticate_loggedOut w L) as (ra & wa & Ha & _ & Hthrow).
    specialize (Hthrow Hnone). subst ra.
    pose proof (sendCall_loggedOut "core.add_torrent_file"
                  (formatData cfg (meta_name newTorrent ++ ".cross-seed.torrent")%string
                     (encoded_base64 newTorrent) path) w _ _ _ L Ha) as Hs.
    simpl in Hs.
    assert (Hsub : fst (fst (inject_submit serve cfg newTorrent path w))
                   = Throw (CrossSeedError ("Could not reach deluge: " ++ url_origin cfg)%string)).
    { unfold inject_submit. now rewrite (bind_throw _ _ _ _ _ _ Hs). }
    unfold inject, inject_notComplete, bind.
    destruct (infoHash searchee) as [h|].
    + rewrite Hh. simpl.
      destruct (inject_submit serve cfg newTorrent path w) as [[r' w2] l2]. exact Hsub.
    + simpl. destruct (inject_submit serve cfg newTorrent path w) as [[r' w2] l2].
      exact Hsub.
Qed.

(** C6.  On a logged-in session with [enLabeled] set, when the client
    answers the label-set with an error that says "Unknown Label" and
    answers the create call, [setLabel] makes exactly three requests:
    the set, one create, one set again.  That holds whatever the reply
    to the second set is: after a second "Unknown Label" nothing more
    is tried. *)
Theorem setLabel_creates_once torrenthash w p :
  let set := [VStr torrenthash; VStr (dataCategory cfg)] in
  let create := [VStr (dataCategory cfg)] in
  let w1 := after_call serve w "label.set_torrent" set in
  enLabeled (this w) = Some p ->
  loggedIn (this w) = true ->
  error_with "Unknown Label" (reply_of serve w "label.set_torrent" set) = true ->
  (exists v, sendCall_return (reply_of serve w1 "label.add" create) = Ret v) ->
  calls (snd (setLabel serve cfg torrenthash w))
  = [("label.set_torrent", set); ("label.add", create); ("label.set_torrent", set)].
Proof.
  intros set create w1 Hen L Herr (v2 & Hadd).
  destruct (sendCall_return_error "Unknown Label" _ ltac:(discriminate) Herr)
    as (v & res & msg & Hv & _ & _ & Hmsg & Hinc).
  pose proof (sendCall_loggedIn "label.set_torrent" set w L) as H1.
  rewrite Hv in H1. fold w1 in H1.
  assert (L1 : loggedIn (this w1) = true) by exact L.
  pose proof (sendCall_loggedIn "label.add" create w1 L1) as H2.
  rewrite Hadd in H2.
  set (w2 := after_call serve w1 "label.add" create) in *.
  assert (L2 : loggedIn (this w2) = true) by exact L.
  pose proof (sendCall_loggedIn "label.set_torrent" set w2 L2) as H3.
  unfold setLabel, bind, get_this. rewrite Hen.
  fold set create. rewrite H1. unfold lift. rewrite Hmsg, Hinc.
  rewrite H2, H3.
  destruct (sendCall_return (reply_of serve w2 "label.set_torrent" set));
    reflexivity.
Qed.

(** C7, amended.  On a session that is already logged in, [sendCall]
    makes no probe: its one request is the call itself, and the session
    stays logged in.  The probe is made by [authenticate] when it is
    invoked on a logged-in session: one [auth.check_session] request
    with the cookie, and the session stays logged in exactly when a
    response came.  Whatever the session, one [sendCall] makes at most
    two requests: at most one login and the call. *)
Theorem sendCall_authenticated method params w :
  loggedIn (this w) = true ->
  (calls (snd (sendCall serve cfg method params w)) = [(method, params)]
   /\ loggedIn (this (snd (fst (sendCall serve cfg method params w)))) = true)
  /\ (let probe := reply_of serve w "auth.check_session" [VStr (delugeCookie (this w))] in
      calls (snd (authenticate serve cfg w))
      = [("auth.check_session", [VStr (delugeCookie (this w))])]
      /\ fst (fst (authenticate serve cfg w)) = Ret (is_some probe)
      /\ loggedIn (this (snd (fst (authenticate serve cfg w)))) = is_some probe)
  /\ (forall w0, (List.length (snd (sendCall serve cfg method params w0)) <= 2)%nat).
Proof.
  intros L. split; [|split].
  - rewrite (sendCall_loggedIn _ _ _ L). simpl. auto.
  - rewrite (authenticate_loggedIn _ L). simpl. auto.
  - intros w0.
    destruct (sendCall serve cfg method params w0) as [[r w'] l] eqn:E.
    apply sendCall_shape in E. simpl.
    destruct E as [_ [(pre & w1 & -> & _ & Hlen & _) | (_ & Hlen & _)]].
    + rewrite length_app. simpl. lia.
    + lia.
Qed.

(** [checkCompleted] never returns [false]: its handler throws before
    the [return]. *)
Lemma checkCompleted_never_false infohash w :
  fst (fst (checkCompleted serve cfg infohash w)) <> Ret (Some false).
Proof.
  rewrite checkCompleted_eq.
  destruct (sendCall serve cfg "web.update_ui" update_ui_params w)
    as [[[v|e] w1] l1]; simpl; [|discriminate].
  destruct (state_of v infohash) as [state|e]; [|discriminate].
  destruct (is_Seeding state); discriminate.
Qed.

End Facts.

(** ** The claims on the sample client *)

Import Samples.

Lemma sample_serve_answers plugins torrents keeps :
  forall c req, exists resp,
    fst (sample_serve plugins torrents keeps c req) = Some resp
    /\ envelope resp = true.
Proof.
  intros c req. unfold sample_serve.
  repeat match goal with
         | |- context [if ?b then _ else _] => destruct b
         | |- context [match ?x with _ => _ end] => destruct x
         end;
    simpl; eexists; split; reflexivity.
Qed.

Lemma label_serve_reports :
  forall c req, req_method req = "web.update_ui" ->
    exists resp, fst (label_serve c req) = Some resp
                 /\ reports_state sample_hash resp = true.
Proof.
  intros c req H. unfold label_serve, sample_serve. rewrite H. simpl.
  eexists. split; reflexivity.
Qed.

Lemma inject_twice_witness :
  fst (fst first_inject) = Ret SUCCESS
  /\ fst (fst second_inject) = Ret ALREADY_EXISTS.
Proof.
  apply (inject_twice _ label_serve sample_cfg sample_metafile show_from_client None
           (validated label_serve new_world)
           (fst (fst first_inject)) (snd (fst first_inject)) (snd first_inject)
           (fst (fst second_inject)) (snd (fst second_inject)) (snd second_inject)).
  - vm_compute. reflexivity.
  - vm_compute. reflexivity.
  - vm_compute. eexists. split; [right; left; reflexivity | split; reflexivity].
  - vm_compute. eexists. split; [right; left; reflexivity | split; reflexivity].
Defined.

Lemma inject_not_complete_witness :
  fst (fst (inject_sample downloading_serve show_from_client
              (validated downloading_serve new_world)))
    = Ret TORRENT_NOT_COMPLETE
  /\ with_method "core.add_torrent_file"
       (snd (inject_sample downloading_serve show_from_client
               (validated downloading_serve new_world))) = [].
Proof.
  unfold inject_sample.
  edestruct (inject_not_complete _ downloading_serve sample_cfg sample_metafile
               show_from_client None (validated downloading_serve new_world)
               sample_hash) as [H1 H2].
  - reflexivity.
  - discriminate.
  - vm_compute. reflexivity.
  - vm_compute. reflexivity.
  - vm_compute. reflexivity.
  - rewrite H1. split; [reflexivity | exact H2].
Defined.

(** C2, as the specification states it, fails: a session that is not
    logged in, a searchee without an info hash, and a client that gives
    no response; [inject] does not return a result, it throws. *)
Lemma inject_unreachable_throws :
  loggedIn (this dead_world) = false
  /\ infoHash show_from_disk = None
  /\ fst (fst (inject_sample dead_serve show_from_disk dead_world))
     = Throw (CrossSeedError "Could not reach deluge: http://localhost:8112")
  /\ forall r, fst (fst (inject_sample dead_serve show_from_disk dead_world)) <> Ret r.
Proof.
  split; [reflexivity|]. split; [reflexivity|]. split; [reflexivity|].
  intros r. vm_compute. discriminate.
Qed.

Lemma inject_returns_or_aborts_witness :
  (exists r,
      fst (fst (inject_sample label_serve show_from_client new_world)) = Ret r
      /\ In r [SUCCESS; ALREADY_EXISTS; TORRENT_NOT_COMPLETE; FAILURE])
  /\ fst (fst (inject_sample dead_serve show_from_disk dead_world))
     = Throw (CrossSeedError "Could not reach deluge: http://localhost:8112").
Proof.
  split.
  - apply (proj1 (inject_returns_or_aborts _ label_serve sample_cfg sample_metafile
                    show_from_client None new_world)).
    + apply sample_serve_answers.
    + intros h Hh. injection Hh as <-. apply label_serve_reports.
  - apply (proj2 (inject_returns_or_aborts _ dead_serve sample_cfg sample_metafile
                    show_from_disk None dead_world)); reflexivity.
Defined.

(** C5: the code at a client without the Label plugin.  After
    [validateConfig] the promise in [enLabeled] has resolved to
    [false]; [setLabel] all the same sends a [label.set_torrent] and
    returns [true]. *)
Theorem setLabel_without_plugin :
  enLabeled (this (validated plain_serve new_world)) = Some (Resolved false)
  /\ fst (fst (setLabel plain_serve sample_cfg sample_hash
                 (validated plain_serve new_world))) = Ret true
  /\ calls (snd (setLabel plain_serve sample_cfg sample_hash
                   (validated plain_serve new_world)))
     = [("label.set_torrent", [VStr sample_hash; VStr "cross-seed"])].
Proof.
  split; [|split]; vm_compute; reflexivity.
Qed.

Lemma setLabel_creates_once_witness :
  calls (snd (setLabel label_serve sample_cfg sample_hash labelled_world))
  = [("label.set_torrent", [VStr sample_hash; VStr "cross-seed"]);
     ("label.add", [VStr "cross-seed"]);
     ("label.set_torrent", [VStr sample_hash; VStr "cross-seed"])]
  /\ error_with "Unknown Label"
       (snd (last (snd (setLabel forgetful_serve sample_cfg sample_hash labelled_world))
                  (mkRequest 0 "" [] "", None))) = true
  /\ calls (snd (setLabel forgetful_serve sample_cfg sample_hash labelled_world))
     = [("label.set_torrent", [VStr sample_hash; VStr "cross-seed"]);
        ("label.add", [VStr "cross-seed"]);
        ("label.set_torrent", [VStr sample_hash; VStr "cross-seed"])].
Proof.
  split; [|split].
  - apply (setLabel_creates_once _ label_serve sample_cfg sample_hash labelled_world
             (Resolved true)).
    + reflexivity.
    + reflexivity.
    + vm_compute. reflexivity.
    + vm_compute. eexists. reflexivity.
  - vm_compute. reflexivity.
  - apply (setLabel_creates_once _ forgetful_serve sample_cfg sample_hash labelled_world
             (Resolved true)).
    + reflexivity.
    + reflexivity.
    + vm_compute. reflexivity.
    + vm_compute. eexists. reflexivity.
Defined.

(** C7, as the specification states it, fails: on a logged-in session
    [sendCall] makes the call at once; its first request is not the
    probe, and no request of it is. *)
Lemma sendCall_does_not_probe :
  loggedIn (this labelled_world) = true
  /\ probes_first (snd (sendCall label_serve sample_cfg "core.get_enabled_plugins" []
                          labelled_world)) = false
  /\ methods (snd (sendCall label_serve sample_cfg "core.get_enabled_plugins" []
                     labelled_world)) = ["core.get_enabled_plugins"].
Proof.
  split; [|split]; vm_compute; reflexivity.
Qed.

Lemma sendCall_authenticated_witness :
  calls (snd (sendCall label_serve sample_cfg "core.get_enabled_plugins" []
                labelled_world)) = [("core.get_enabled_plugins", [])]
  /\ calls (snd (authenticate dead_serve sample_cfg
                   (mkWorld (this labelled_world) tt)))
     = [("auth.check_session", [VStr "_session_id=2f6d0b1c"])]
  /\ loggedIn (this (snd (fst (authenticate dead_serve sample_cfg
                                 (mkWorld (this labelled_world) tt))))) = false.
Proof.
  destruct (sendCall_authenticated _ label_serve sample_cfg
              "core.get_enabled_plugins" [] labelled_world eq_refl)
    as [[H1 _] _].
  destruct (sendCall_authenticated _ dead_serve sample_cfg
              "core.get_enabled_plugins" [] (mkWorld (this labelled_world) tt) eq_refl)
    as [_ [(H2 & _ & H3) _]].
  split; [exact H1 | split; [exact H2 | exact H3]].
Defined.

(** C10: the code when the client does not hold the info hash.  The
    lookup of the state fails, the handler fails in turn, and
    [checkCompleted] throws a TypeError where the claim has it return
    [false]; nor does it return [false] on any other input. *)
Theorem checkCompleted_absent_hash_throws :
  fst (fst (checkCompleted plain_serve sample_cfg sample_hash
              (validated plain_serve new_world))) = Throw TypeError
  /\ fst (fst (inject_sample plain_serve show_from_client
                 (validated plain_serve new_world))) = Throw TypeError
  /\ (forall Server (serve : Server -> Request -> option AxiosResponse * Server)
             cfg infohash w,
        fst (fst (checkCompleted serve cfg infohash w)) <> Ret (Some false)).
Proof.
  split; [vm_compute; reflexivity|]. split; [vm_compute; reflexivity|].
  intros. apply checkCompleted_never_false.
Qed.

End DelugeFacts.

(* ================================================================= *)
(** * Part V: further properties of the pre-filter *)
(* ================================================================= *)

Module PreFilterMore.

Import PreFilter PreFilterFacts Notions.

(** ** The duplicate resolver *)

Lemma fold_pick_some l : forall e,
  fold_left pick l (Some e)
  = Some (if resolved e then e
          else match find resolved l with Some s => s | None => e end).
Proof.
  induction l as [|cur l IH]; intros e; simpl.
  - now destruct (resolved e).
  - unfold resolved in *. destruct (truthy_ostr (infoHash cur)) eqn:C;
      destruct (truthy_ostr (infoHash e)) eqn:E; simpl; rewrite IH.
    + now rewrite E.
    + now rewrite C.
    + now rewrite E.
    + now rewrite E.
Qed.

Lemma fold_pick_none l :
  fold_left pick l None
  = match find resolved l with Some s => Some s | None => hd_error l end.
Proof.
  destruct l as [|cur l]; simpl; auto.
  rewrite fold_pick_some. destruct (resolved cur); auto.
  now destruct (find resolved l).
Qed.

Lemma find_filter {A} (p q : A -> bool) l :
  find p (filter q l) = find (fun x => q x && p x) l.
Proof.
  induction l as [|x l IH]; simpl; auto.
  destruct (q x); simpl; auto. now destruct (p x).
Qed.

Lemma hd_error_filter {A} (q : A -> bool) l : hd_error (filter q l) = find q l.
Proof.
  induction l as [|x l IH]; simpl; auto. now destruct (q x).
Qed.

Lemma map_get_duplicateMap n l : map_get n (duplicateMap l) = survivor n l.
Proof.
  unfold duplicateMap, survivor. rewrite map_get_fold. simpl.
  rewrite fold_pick_none, find_filter, hd_error_filter.
  reflexivity.
Qed.

Lemma keyed_duplicateMap l : keyed (duplicateMap l).
Proof. apply keyed_fold. split; constructor. Qed.

Lemma kept_of_name (l : list Searchee) (n : string) :
  filter (has_name n) (filterDupes l)
  = match survivor n l with Some s => [s] | None => [] end.
Proof.
  unfold filterDupes. rewrite values_of_name by apply keyed_duplicateMap.
  now rewrite map_get_duplicateMap.
Qed.

Lemma find_In {A} (p : A -> bool) l x : find p l = Some x -> In x l /\ p x = true.
Proof.
  induction l as [|y l IH]; simpl; [discriminate|].
  destruct (p y) eqn:E.
  - intros H. injection H as <-. auto.
  - intros H. destruct (IH H). auto.
Qed.

Lemma survivor_In n l s : survivor n l = Some s -> In s l /\ name s = n.
Proof.
  unfold survivor. destruct (find _ l) as [s'|] eqn:E.
  - intros H. injection H as <-. apply find_In in E. destruct E as [Hin Hp].
    apply andb_true_iff in Hp. destruct Hp as [Hn _].
    split; auto. now apply String.eqb_eq.
  - intros H. apply find_In in H. destruct H as [Hin Hn].
    split; auto. now apply String.eqb_eq.
Qed.

Lemma survivor_some n l s : In s l -> name s = n -> survivor n l <> None.
Proof.
  intros Hin Hn. unfold survivor. destruct (find _ l); [discriminate|].
  intros H. apply (find_none _ _ H) in Hin.
  unfold has_name in Hin. rewrite Hn, String.eqb_refl in Hin. discriminate.
Qed.

Lemma map_name_values m : keyed m -> List.map name (map_values m) = List.map fst m.
Proof.
  intros [_ H]. induction H as [|[k v] m Hx Hm IH]; simpl; auto.
  simpl in Hx. now rewrite Hx, IH.
Qed.

Lemma kept_from_input l s : In s (filterDupes l) -> In s l.
Proof.
  intros Hs.
  assert (H : In s (filter (has_name (name s)) (filterDupes l))).
  { apply filter_In. split; auto. unfold has_name. apply String.eqb_refl. }
  rewrite kept_of_name in H.
  destruct (survivor (name s) l) as [s'|] eqn:E; [|destruct H].
  destruct H as [<- | []]. now apply survivor_In in E.
Qed.

Lemma kept_NoDup l : NoDup (List.map name (filterDupes l)).
Proof.
  unfold filterDupes. rewrite map_name_values by apply keyed_duplicateMap.
  apply keyed_duplicateMap.
Qed.

(** *** The order of the output *)

Lemma mem_In n l : mem n l = true <-> In n l.
Proof.
  unfold mem. rewrite existsb_exists. split.
  - intros (x & Hx & E). apply String.eqb_eq in E. now subst.
  - intros H. exists n. split; auto. apply String.eqb_refl.
Qed.

Lemma map_get_keys k m : map_get k m = None <-> ~ In k (List.map fst m).
Proof.
  split; [apply map_get_none_keys|].
  induction m as [|[k' v] m IH]; simpl; auto.
  intros H. destruct (k =? k')%string eqn:E.
  - apply String.eqb_eq in E. subst. tauto.
  - apply IH. tauto.
Qed.

Lemma keys_step acc cur :
  List.map fst (dupe_step acc cur)
  = if mem (name cur) (List.map fst acc) then List.map fst acc
    else List.map fst acc ++ [name cur].
Proof.
  unfold dupe_step. destruct (map_get (name cur) acc) as [e|] eqn:E.
  - assert (Hm : mem (name cur) (List.map fst acc) = true).
    { apply mem_In. destruct (in_dec string_dec (name cur) (List.map fst acc)); auto.
      apply map_get_keys in n. congruence. }
    rewrite Hm. destruct (_ && _); auto. eapply map_set_keys_present; eauto.
  - assert (Hm : mem (name cur) (List.map fst acc) = false).
    { apply not_true_is_false. rewrite mem_In. now apply map_get_keys. }
    rewrite Hm. now apply map_set_keys_absent.
Qed.

Lemma filter_filter {A} (p q : A -> bool) l :
  filter p (filter q l) = filter (fun x => q x && p x) l.
Proof.
  induction l as [|x l IH]; simpl; auto.
  destruct (q x); simpl; auto. destruct (p x); simpl; now rewrite IH.
Qed.

Lemma keys_fold l : forall acc,
  List.map fst (fold_left dupe_step l acc)
  = List.map fst acc
    ++ filter (fun n => negb (mem n (List.map fst acc)))
         (first_seen (List.map name l)).
Proof.
  induction l as [|cur l IH]; intros acc; simpl.
  - now rewrite app_nil_r.
  - rewrite IH, keys_step.
    destruct (mem (name cur) (List.map fst acc)) eqn:Hm; simpl.
    + f_equal. rewrite filter_filter. apply filter_ext. intros n.
      destruct (n =? name cur)%string eqn:E; simpl; auto.
      apply String.eqb_eq in E. subst. now rewrite Hm.
    + rewrite <- app_assoc. simpl. f_equal. f_equal.
      rewrite filter_filter. apply filter_ext. intros n.
      unfold mem. rewrite existsb_app. simpl. rewrite orb_false_r.
      rewrite negb_orb. apply andb_comm.
Qed.

Lemma filter_id {A} (p : A -> bool) l :
  (forall x, In x l -> p x = true) -> filter p l = l.
Proof.
  induction l as [|x l IH]; simpl; auto. intros H.
  rewrite (H x (or_introl eq_refl)). f_equal. apply IH. auto.
Qed.

Lemma kept_keys (l : list Searchee) :
  List.map fst (duplicateMap l) = first_seen (List.map name l).
Proof.
  unfold duplicateMap. rewrite keys_fold. simpl. now apply filter_id.
Qed.

Lemma first_seen_NoDup l : NoDup l -> first_seen l = l.
Proof.
  induction 1 as [|n l Hn Hl IH]; simpl; auto.
  rewrite IH. f_equal. apply filter_id.
  intros m Hm. apply negb_true_iff, String.eqb_neq. congruence.
Qed.

Lemma first_seen_length l : (List.length (first_seen l) <= List.length l)%nat.
Proof.
  induction l as [|n l IH]; simpl; auto.
  pose proof (filter_length_le (fun m => negb (m =? n)%string) (first_seen l)).
  lia.
Qed.

Lemma map_set_absent k v m : map_get k m = None -> map_set k v m = m ++ [(k, v)].
Proof.
  induction m as [|[k' v'] m IH]; simpl; auto.
  destruct (k =? k')%string; [discriminate|]. intros H. now rewrite IH.
Qed.

Lemma fold_distinct l : forall acc,
  NoDup (List.map fst acc ++ List.map name l) ->
  fold_left dupe_step l acc = acc ++ List.map (fun s => (name s, s)) l.
Proof.
  induction l as [|cur l IH]; intros acc H; simpl.
  - now rewrite app_nil_r.
  - assert (Hn : map_get (name cur) acc = None).
    { apply map_get_keys. intros Hin. simpl in H.
      apply NoDup_remove_2 in H. apply H. apply in_or_app. auto. }
    unfold dupe_step at 2. rewrite Hn, (map_set_absent _ _ _ Hn).
    rewrite IH.
    + now rewrite <- app_assoc.
    + rewrite map_app. simpl. rewrite <- app_assoc. exact H.
Qed.

Lemma distinct_unchanged l : NoDup (List.map name l) -> filterDupes l = l.
Proof.
  intros H. unfold filterDupes, duplicateMap.
  rewrite fold_distinct by exact H. simpl.
  unfold map_values. rewrite map_map. simpl. apply map_id.
Qed.

(** The count of duplicates that [filterDupes] logs is never negative,
    and it is zero exactly when no name occurs twice in the input. *)
Theorem numDupes_nonneg (l : list Searchee) :
  0 <= numDupes l /\ (numDupes l = 0 <-> NoDup (List.map name l)).
Proof.
  unfold numDupes.
  assert (Hlen : List.length (filterDupes l) = List.length (first_seen (List.map name l))).
  { rewrite <- kept_keys. unfold filterDupes, map_values. now rewrite !length_map. }
  pose proof (first_seen_length (List.map name l)) as Hle.
  rewrite length_map in Hle. split; [lia|]. split.
  - intros H0.
    assert (Heq : List.length (first_seen (List.map name l)) = List.length (List.map name l)).
    { rewrite length_map. lia. }
    clear - Heq. induction (List.map name l) as [|n r IH]; [constructor|].
    simpl in Heq.
    pose proof (filter_length_le (fun m => negb (m =? n)%string) (first_seen r)) as H1.
    pose proof (first_seen_length r) as H2.
    assert (Hr : List.length (first_seen r) = List.length r) by lia.
    assert (Hf : List.length (filter (fun m => negb (m =? n)%string) (first_seen r))
                 = List.length (first_seen r)) by lia.
    specialize (IH Hr). constructor; auto.
    rewrite (first_seen_NoDup _ IH) in Hf.
    intros Hin. clear - Hf Hin.
    induction r as [|x r IH]; [destruct Hin|]. simpl in Hf.
    pose proof (filter_length_le (fun m => negb (m =? n)%string) r) as H1.
    destruct (x =? n)%string eqn:E; simpl in Hf; [lia|].
    destruct Hin as [-> | Hin]; [rewrite String.eqb_refl in E; discriminate|].
    apply IH; auto.
  - intros H. rewrite (distinct_unchanged l H). lia.
Qed.

(** Of each name the output holds exactly the searchee that [survivor]
    names: the first of that name with an info hash, or else the first
    of that name; nothing for a name that the input does not have. *)
Theorem filterDupes_survivor (l : list Searchee) (n : string) :
  filter (has_name n) (filterDupes l)
  = match survivor n l with Some s => [s] | None => [] end.
Proof.
  unfold filterDupes. rewrite values_of_name by apply keyed_duplicateMap.
  rewrite map_get_duplicateMap. reflexivity.
Qed.

(** The output is drawn from the input, holds every name of the input,
    and holds no name twice. *)
Theorem filterDupes_names (l : list Searchee) :
  (forall s, In s (filterDupes l) -> In s l)
  /\ (forall s, In s l -> exists s', In s' (filterDupes l) /\ name s' = name s)
  /\ NoDup (List.map name (filterDupes l)).
Proof.
  split; [|split].
  - intros s. apply kept_from_input.
  - intros s Hs. pose proof (survivor_some (name s) l s Hs eq_refl) as Hne.
    pose proof (kept_of_name l (name s)) as H.
    destruct (survivor (name s) l) as [s'|] eqn:E; [|congruence].
    exists s'. split.
    + assert (Hin : In s' (filter (has_name (name s)) (filterDupes l)))
        by (rewrite H; simpl; auto).
      now apply filter_In in Hin.
    + now apply survivor_In in E.
  - apply kept_NoDup.
Qed.

(** The names of the output are the names of the input, each at the
    place where it is first seen. *)
Theorem filterDupes_first_seen_order (l : list Searchee) :
  List.map name (filterDupes l) = first_seen (List.map name l).
Proof.
  unfold filterDupes. rewrite map_name_values by apply keyed_duplicateMap.
  apply kept_keys.
Qed.

(** A list in which no name occurs twice comes back unchanged; hence
    resolving duplicates a second time changes nothing. *)
Theorem filterDupes_idempotent (l : list Searchee) :
  (NoDup (List.map name l) -> filterDupes l = l)
  /\ filterDupes (filterDupes l) = filterDupes l.
Proof.
  split; [apply distinct_unchanged|].
  apply distinct_unchanged, kept_NoDup.
Qed.

Lemma filterDupes_idempotent_witness :
  filterDupes [Samples.show_from_client; Samples.other_film]
  = [Samples.show_from_client; Samples.other_film].
Proof.
  apply (proj1 (filterDupes_idempotent [Samples.show_from_client; Samples.other_film])).
  repeat constructor; simpl; intuition discriminate.
Defined.

(** ** The timestamp gate *)

Lemma in_crossJoin ss is_ s i :
  In (s, i) (crossJoin ss is_) <-> In s ss /\ In i is_.
Proof.
  unfold crossJoin. rewrite in_flat_map. split.
  - intros (s' & Hs & H). apply in_map_iff in H. destruct H as (i' & E & Hi).
    injection E as <- <-. auto.
  - intros [Hs Hi]. exists s. split; auto. apply in_map_iff. now exists i.
Qed.

Lemma in_leftOuterJoin ts s i r :
  In r (leftOuterJoin ts (s, i)) <->
  (r = (s, i, None) /\ forall t, In t ts -> on_clause s i t = false)
  \/ (exists t, r = (s, i, Some t) /\ In t ts /\ on_clause s i t = true).
Proof.
  unfold leftOuterJoin. simpl.
  destruct (filter (on_clause s i) ts) as [|t0 m] eqn:E.
  - assert (Hnone : forall t, In t ts -> on_clause s i t = false).
    { intros t Ht. destruct (on_clause s i t) eqn:O; auto.
      assert (In t (filter (on_clause s i) ts)) by (apply filter_In; auto).
      rewrite E in H. destruct H. }
    simpl. split.
    + intros [<- | []]. left. auto.
    + intros [[-> _] | (t & -> & Ht & O)]; auto.
      rewrite (Hnone t Ht) in O. discriminate.
  - change ((s, i, Some t0) :: List.map (fun t : TimestampRow => (s, i, Some t)) m)
      with (List.map (fun t : TimestampRow => (s, i, Some t)) (t0 :: m)).
    rewrite <- E. rewrite in_map_iff. split.
    + intros (t & <- & Ht). apply filter_In in Ht. right. exists t. tauto.
    + intros [[-> Hn] | (t & -> & Ht & O)].
      * assert (In t0 (filter (on_clause s i) ts)) by (rewrite E; simpl; auto).
        apply filter_In in H. destruct H as [H1 H2].
        rewrite (Hn t0 H1) in H2. discriminate.
      * exists t. split; auto. apply filter_In. auto.
Qed.




Lemma joined_row_named db nm enabled s i ot :
  In (s, i, ot) (joined db nm enabled) ->
  In s (tbl_searchee db) /\ searchee_name s = nm /\ enabled <> [].
Proof.
  unfold joined. rewrite filter_In, in_flat_map. simpl.
  intros [([s' i'] & Hc & Hr) Hw].
  apply andb_true_iff in Hw. destruct Hw as [Hn He].
  apply String.eqb_eq in Hn. apply in_crossJoin in Hc.
  apply in_leftOuterJoin in Hr.
  split; [|split; [exact Hn|]].
  - destruct Hr as [[E _] | (t & E & _)]; injection E as -> -> _; tauto.
  - intros ->. discriminate.
Qed.

Lemma joined_empty db nm enabled :
  enabled = [] \/ (forall s, In s (tbl_searchee db) -> searchee_name s <> nm) ->
  joined db nm enabled = [].
Proof.
  intros H. destruct (joined db nm enabled) as [|[[s i] ot] rest] eqn:E; auto.
  assert (Hin : In (s, i, ot) (joined db nm enabled)) by (rewrite E; simpl; auto).
  apply joined_row_named in Hin. destruct Hin as (Hs & Hn & He).
  destruct H as [-> | H]; [congruence | destruct (H s Hs Hn)].
Qed.

(** With no enabled indexer, or for a name that the searchee table does
    not hold, the gate lets the searchee through, whatever the windows. *)
Theorem filterTimestamps_nothing_to_ask cfg db enabled now searchee :
  enabled = []
  \/ (forall s, In s (tbl_searchee db) -> searchee_name s <> name searchee) ->
  filterTimestamps cfg db enabled now searchee = true.
Proof.
  intros H. unfold filterTimestamps, timestampDataSql, older_rule, recent_rule.
  rewrite (joined_empty _ _ _ H). simpl.
  destruct (excludeOlder cfg), (excludeRecentSearch cfg); reflexivity.
Qed.

Lemma filterTimestamps_nothing_to_ask_witness :
  filterTimestamps Samples.cfg_windows Samples.db_searched_twice []
    Samples.sample_now Samples.show_from_disk = true.
Proof.
  apply filterTimestamps_nothing_to_ask. left. reflexivity.
Defined.

(** With only the "exclude recent" window, and a cutoff that is not
    before the epoch: the searchee is held back exactly when there is
    an enabled indexer and every row of every enabled indexer has a
    last search newer than the cutoff.  One enabled indexer that was
    never searched, or was last searched at or before the cutoff, lets
    it through. *)
Theorem filterTimestamps_recent cfg db enabled now searchee d :
  excludeOlder cfg = None ->
  excludeRecentSearch cfg = Some d ->
  0 <= nMsAgo now d ->
  (filterTimestamps cfg db enabled now searchee = false <->
   joined db (name searchee) enabled <> []
   /\ forall r, In r (joined db (name searchee) enabled) ->
        exists row t, snd r = Some row /\ last_searched row = Some t
                      /\ nMsAgo now d < t).
Proof.
  intros Ho Hr Hcut.
  unfold filterTimestamps, older_rule, recent_rule, timestampDataSql.
  rewrite Ho, Hr. simpl.
  set (rows := joined db (name searchee) enabled).
  pose proof (sql_min_spec (List.map (coalesce last_searched 0) rows)) as S.
  destruct (sql_min (List.map (coalesce last_searched 0) rows)) as [m|]; simpl.
  - destruct S as [Hin Hmin].
    assert (Hne : rows <> []).
    { intros E. rewrite E in Hin. destruct Hin. }
    destruct (m >? nMsAgo now d) eqn:G.
    + apply Z.gtb_lt in G.
      replace (m =? 0) with false by (symmetry; apply Z.eqb_neq; lia).
      simpl. split; [intros _|reflexivity]. split; auto.
      intros r Hr'.
      assert (Hv : m <= coalesce last_searched 0 r).
      { apply Hmin. apply in_map. exact Hr'. }
      unfold coalesce in Hv. destruct (snd r) as [row|]; [|lia].
      destruct (last_searched row) as [t|] eqn:El; [|lia].
      exists row, t. split; [reflexivity|]. split; [exact El|]. lia.
    + rewrite andb_false_r. split; [discriminate|].
      intros [_ Hall]. exfalso.
      apply in_map_iff in Hin. destruct Hin as (r & Hm & Hr').
      destruct (Hall r Hr') as (row & t & E1 & E2 & Ht).
      unfold coalesce in Hm. rewrite E1, E2 in Hm. subst m.
      rewrite Z.gtb_ltb in G. apply Z.ltb_ge in G. lia.
  - split; [discriminate|]. intros [Hne _]. apply map_eq_nil in S. contradiction.
Qed.

Lemma filterTimestamps_recent_witness :
  filterTimestamps (mkRuntimeConfig None (Some 50)) Samples.db_searched_twice [1; 2]
    120 Samples.show_from_disk = false.
Proof.
  apply (filterTimestamps_recent (mkRuntimeConfig None (Some 50))
           Samples.db_searched_twice [1; 2] 120 Samples.show_from_disk 50
           eq_refl eq_refl).
  - vm_compute. discriminate.
  - split; [vm_compute; discriminate|].
    intros r Hr. vm_compute in Hr.
    destruct Hr as [<- | [<- | []]]; eexists; eexists;
      (split; [reflexivity | split; [reflexivity | vm_compute; reflexivity]]).
Defined.

(** With only the "exclude older" window, first-search times after the
    epoch and a cutoff that the database can hold: the searchee is held
    back exactly when some enabled indexer first searched it before the
    cutoff.  A first search at the cutoff itself does not hold it back. *)
Theorem filterTimestamps_older cfg db enabled now searchee d :
  excludeOlder cfg = Some d ->
  excludeRecentSearch cfg = None ->
  nMsAgo now d <= INT64_MAX ->
  (forall r row t, In r (joined db (name searchee) enabled) ->
     snd r = Some row -> first_searched row = Some t -> 0 < t) ->
  (filterTimestamps cfg db enabled now searchee = false <->
   exists r row t, In r (joined db (name searchee) enabled)
                   /\ snd r = Some row /\ first_searched row = Some t
                   /\ t < nMsAgo now d).
Proof.
  intros Ho Hr Hcut Hpos.
  unfold filterTimestamps, older_rule, recent_rule, timestampDataSql.
  rewrite Ho, Hr. simpl.
  set (rows := joined db (name searchee) enabled) in *.
  pose proof (sql_min_spec (List.map (coalesce first_searched INT64_MAX) rows)) as S.
  assert (Hval : forall r, In r rows -> 0 < coalesce first_searched INT64_MAX r).
  { intros r Hr'. unfold coalesce.
    destruct (snd r) as [row|] eqn:E1; [|reflexivity].
    destruct (first_searched row) as [t|] eqn:E2; [|reflexivity].
    eapply Hpos; eauto. }
  destruct (sql_min (List.map (coalesce first_searched INT64_MAX) rows)) as [m|]; simpl.
  - destruct S as [Hin Hmin].
    apply in_map_iff in Hin. destruct Hin as (r0 & Hm & Hr0).
    pose proof (Hval r0 Hr0) as Hm0. rewrite Hm in Hm0.
    replace (m =? 0) with false by (symmetry; apply Z.eqb_neq; lia).
    simpl. destruct (m <? nMsAgo now d) eqn:G.
    + apply Z.ltb_lt in G. split; [intros _|reflexivity].
      unfold coalesce in Hm.
      destruct (snd r0) as [row|] eqn:E1; [|unfold INT64_MAX in *; lia].
      destruct (first_searched row) as [t|] eqn:E2; [|unfold INT64_MAX in *; lia].
      exists r0, row, t. subst m. auto.
    + apply Z.ltb_ge in G. split; [discriminate|].
      intros (r & row & t & Hr' & E1 & E2 & Ht). exfalso.
      assert (Hv : m <= coalesce first_searched INT64_MAX r).
      { apply Hmin. apply in_map. exact Hr'. }
      unfold coalesce in Hv. rewrite E1, E2 in Hv. lia.
  - split; [discriminate|].
    intros (r & _ & _ & Hr' & _). apply map_eq_nil in S.
    fold rows in S. rewrite S in Hr'. destruct Hr'.
Qed.

Lemma filterTimestamps_older_witness :
  filterTimestamps (mkRuntimeConfig (Some 50) None) Samples.db_searched_twice [1; 2]
    105 Samples.show_from_disk = false
  /\ filterTimestamps (mkRuntimeConfig (Some 50) None) Samples.db_searched_twice [1; 2]
       100 Samples.show_from_disk = true.
Proof.
  split; [|reflexivity].
  apply (filterTimestamps_older (mkRuntimeConfig (Some 50) None)
           Samples.db_searched_twice [1; 2] 105 Samples.show_from_disk 50
           eq_refl eq_refl).
  - vm_compute. discriminate.
  - intros r row t Hr. vm_compute in Hr.
    destruct Hr as [<- | [<- | []]]; simpl; intros E1 E2;
      injection E1 as <-; injection E2 as <-; reflexivity.
  - eexists; eexists; eexists. split; [left; reflexivity|].
    split; [reflexivity | split; [reflexivity | vm_compute; reflexivity]].
Defined.

End PreFilterMore.

(* ================================================================= *)
(** * Part VI: properties of the content filter *)
(* ================================================================= *)

Module ContentFacts.

Import PreFilter Content.

Section Facts.

Variable EP_REGEX : string -> bool.
Variable SEASON_REGEX : string -> bool.
Variable VIDEO_EXTENSIONS : list string.
Variable extname : string -> string.
Variable dirname_basename : string -> string.
Variable cfg : ContentConfig.

Local Notation "'classify'" :=
  (filterByContent EP_REGEX SEASON_REGEX VIDEO_EXTENSIONS extname dirname_basename cfg).
Local Notation "'step'" :=
  (content_step EP_REGEX SEASON_REGEX VIDEO_EXTENSIONS extname dirname_basename cfg).
Local Notation "'run'" :=
  (filterAllByContent_run EP_REGEX SEASON_REGEX VIDEO_EXTENSIONS extname
     dirname_basename cfg).
Local Notation "'count'" :=
  (count_result EP_REGEX SEASON_REGEX VIDEO_EXTENSIONS extname dirname_basename cfg).
Local Notation "'is_included'" :=
  (included EP_REGEX SEASON_REGEX VIDEO_EXTENSIONS extname dirname_basename cfg).

Lemma result_eqb_eq a b : result_eqb a b = true <-> a = b.
Proof. destruct a, b; simpl; split; congruence. Qed.

Lemma tally_get_incr t r r' :
  r <> INCLUDED ->
  tally_get (tally_incr t r) r'
  = tally_get t r' + (if result_eqb r r' then 1 else 0).
Proof.
  intros Hr. destruct r, r'; simpl; try lia; congruence.
Qed.

Lemma count_cons r s l :
  count r (s :: l) = ((if result_eqb (classify s) r then 1 else 0) + count r l)%nat.
Proof.
  unfold count_result. simpl.
  now destruct (result_eqb _ r).
Qed.

(** The state of the loop after a list of searchees. *)
Lemma loop_state l : forall output tally log,
  let '(output', tally', log') := fold_left step l (output, tally, log) in
  output' = output ++ filter is_included l
  /\ log' = log ++ List.map (fun s => logReason (name s) (reasons (classify s)))
                     (filter (fun s => negb (is_included s)) l)
  /\ forall r, r <> INCLUDED ->
       tally_get tally' r = tally_get tally r + Z.of_nat (count r l).
Proof.
  induction l as [|s l IH]; intros output tally log.
  - simpl. rewrite !app_nil_r. repeat split. intros r _. unfold count_result.
    simpl. lia.
  - simpl.
    destruct (result_eqb (classify s) INCLUDED) eqn:E.
    + specialize (IH (output ++ [s]) tally log).
      destruct (fold_left step l (output ++ [s], tally, log)) as [[o' t'] g'].
      destruct IH as (Ho & Hg & Ht).
      assert (Ei : is_included s = true) by exact E.
      rewrite Ei. simpl. split; [|split].
      * now rewrite Ho, <- app_assoc.
      * exact Hg.
      * intros r Hr. rewrite (Ht r Hr), count_cons.
        apply result_eqb_eq in E. rewrite E.
        destruct r; simpl; try reflexivity. congruence.
    + specialize (IH output (tally_incr tally (classify s))
                     (log ++ [logReason (name s) (reasons (classify s))])).
      destruct (fold_left step l _) as [[o' t'] g'].
      destruct IH as (Ho & Hg & Ht).
      assert (Ei : is_included s = false) by exact E.
      rewrite Ei. simpl. split; [|split].
      * exact Ho.
      * now rewrite Hg, <- app_assoc.
      * intros r Hr. rewrite (Ht r Hr).
        assert (Hc : classify s <> INCLUDED).
        { intros H. rewrite H in E. discriminate. }
        rewrite (tally_get_incr _ _ _ Hc).
        rewrite count_cons.
        destruct (result_eqb (classify s) r); lia.
Qed.

Lemma logExclusionsOfType_summary t r n :
  tally_get t r = Z.of_nat n -> logExclusionsOfType t r = summary r n.
Proof.
  intros H. unfold logExclusionsOfType, summary. rewrite H.
  destruct n as [|n]; [reflexivity|].
  replace (Z.of_nat (S n) >? 0) with true; [reflexivity|].
  symmetry. apply Z.gtb_lt. lia.
Qed.

Lemma run_output l : fst (run l) = filter is_included l.
Proof.
  unfold filterAllByContent_run.
  pose proof (loop_state l [] (mkTally 0 0 0) []) as H.
  destruct (fold_left step l ([], mkTally 0 0 0, [])) as [[o t] g].
  now destruct H as (-> & _ & _).
Qed.

(** [filterAllByContent] returns the searchees that [filterByContent]
    includes, in the order of the input. *)
Theorem filterAllByContent_is_filter (l : list Searchee) :
  filterAllByContent EP_REGEX SEASON_REGEX VIDEO_EXTENSIONS extname
    dirname_basename cfg l
  = filter is_included l.
Proof.
  unfold filterAllByContent, filterAllByContent_run.
  pose proof (loop_state l [] (mkTally 0 0 0) []) as H.
  destruct (fold_left step l ([], mkTally 0 0 0, [])) as [[o t] g].
  destruct H as (Ho & _ & _). simpl. exact Ho.
Qed.

(** What [filterAllByContent] logs: a line for each excluded searchee,
    in the order of the input, then one summary line for each kind of
    exclusion that occurred, with its count, in the order single
    episode, season pack episode, non-video; a kind that did not occur
    has no line. *)
Theorem filterAllByContent_log (l : list Searchee) :
  snd (run l)
  = List.map (fun s => logReason (name s) (reasons (classify s)))
      (filter (fun s => negb (is_included s)) l)
    ++ summary EXCLUDED_SINGLE_EPISODE (count EXCLUDED_SINGLE_EPISODE l)
    ++ summary EXCLUDED_SEASON_PACK_EPISODE (count EXCLUDED_SEASON_PACK_EPISODE l)
    ++ summary EXCLUDED_NON_VIDEOS (count EXCLUDED_NON_VIDEOS l).
Proof.
  unfold filterAllByContent_run.
  pose proof (loop_state l [] (mkTally 0 0 0) []) as H.
  destruct (fold_left step l ([], mkTally 0 0 0, [])) as [[o t] g].
  destruct H as (_ & -> & Ht). simpl.
  assert (Hs : forall r, r <> INCLUDED ->
            logExclusionsOfType t r = summary r (count r l)).
  { intros r Hr. apply logExclusionsOfType_summary. rewrite (Ht r Hr).
    destruct r; simpl; congruence. }
  rewrite !Hs by discriminate. reflexivity.
Qed.

(** Every searchee is either returned or counted under exactly one
    kind of exclusion. *)
Theorem filterAllByContent_accounts (l : list Searchee) :
  (List.length (filterAllByContent EP_REGEX SEASON_REGEX VIDEO_EXTENSIONS extname
                  dirname_basename cfg l)
   + count EXCLUDED_SINGLE_EPISODE l
   + count EXCLUDED_SEASON_PACK_EPISODE l
   + count EXCLUDED_NON_VIDEOS l)%nat
  = List.length l.
Proof.
  unfold filterAllByContent. rewrite run_output.
  induction l as [|s l IH]; [reflexivity|].
  rewrite !count_cons. simpl.
  unfold included at 1.
  destruct (classify s); simpl; lia.
Qed.

(** A searchee that is one file of a season pack is never excluded as a
    single episode; it is excluded, as a season pack episode, exactly
    when [includeSingleEpisodes] is on, and with that flag off it is
    judged by its files alone. *)
Theorem filterByContent_pack_member (s : Searchee) :
  isSeasonPackEpisode SEASON_REGEX dirname_basename s = true ->
  classify s
  = if includeSingleEpisodes cfg then EXCLUDED_SEASON_PACK_EPISODE
    else if negb (includeNonVideos cfg)
            && negb (allFilesAreVideos VIDEO_EXTENSIONS extname s)
         then EXCLUDED_NON_VIDEOS
         else INCLUDED.
Proof.
  intros H. unfold filterByContent. rewrite H. simpl.
  rewrite andb_false_r. simpl. now destruct (includeSingleEpisodes cfg).
Qed.

(** A searchee that is a single episode and not part of a season pack
    is excluded as a single episode exactly when both
    [includeEpisodes] and [includeSingleEpisodes] are off; otherwise it
    is judged by its files alone. *)
Theorem filterByContent_single_episode (s : Searchee) :
  isSingleEpisodeTorrent EP_REGEX s = true ->
  isSeasonPackEpisode SEASON_REGEX dirname_basename s = false ->
  classify s
  = if negb (includeEpisodes cfg) && negb (includeSingleEpisodes cfg)
    then EXCLUDED_SINGLE_EPISODE
    else if negb (includeNonVideos cfg)
            && negb (allFilesAreVideos VIDEO_EXTENSIONS extname s)
         then EXCLUDED_NON_VIDEOS
         else INCLUDED.
Proof.
  intros H1 H2. unfold filterByContent. rewrite H1, H2. simpl.
  rewrite !andb_true_r, andb_false_r.
  now destruct (negb (includeEpisodes cfg) && negb (includeSingleEpisodes cfg)).
Qed.

(** A searchee that does not have exactly one file is never excluded
    for being an episode, whatever its name, its path and the flags. *)
Theorem filterByContent_many_files (s : Searchee) :
  List.length (files s) <> 1%nat ->
  classify s <> EXCLUDED_SINGLE_EPISODE
  /\ classify s <> EXCLUDED_SEASON_PACK_EPISODE.
Proof.
  intros H. apply Nat.eqb_neq in H.
  unfold filterByContent, isSingleEpisodeTorrent, isSeasonPackEpisode.
  rewrite H. simpl. rewrite !andb_false_r. simpl.
  destruct (path s) as [p|]; simpl; rewrite ?andb_false_r; simpl;
    rewrite ?andb_false_r;
    destruct (negb (includeNonVideos cfg) && _); split; discriminate.
Qed.

End Facts.

Import ContentSamples.

Lemma filterByContent_pack_member_witness :
  classify defaults pack_member = INCLUDED
  /\ classify (mkContentConfig false false true) pack_member
     = EXCLUDED_SEASON_PACK_EPISODE.
Proof.
  split.
  - exact (filterByContent_pack_member sample_EP sample_SEASON sample_VIDEO_EXTENSIONS
             sample_extname sample_dirname_basename defaults pack_member eq_refl).
  - exact (filterByContent_pack_member sample_EP sample_SEASON sample_VIDEO_EXTENSIONS
             sample_extname sample_dirname_basename (mkContentConfig false false true)
             pack_member eq_refl).
Defined.

Lemma filterByContent_single_episode_witness :
  classify defaults single_episode_torrent = EXCLUDED_SINGLE_EPISODE
  /\ classify (mkContentConfig true false false) single_episode_torrent = INCLUDED.
Proof.
  split.
  - exact (filterByContent_single_episode sample_EP sample_SEASON
             sample_VIDEO_EXTENSIONS sample_extname sample_dirname_basename defaults
             single_episode_torrent eq_refl eq_refl).
  - exact (filterByContent_single_episode sample_EP sample_SEASON
             sample_VIDEO_EXTENSIONS sample_extname sample_dirname_basename
             (mkContentConfig true false false) single_episode_torrent eq_refl eq_refl).
Defined.

Lemma filterByContent_many_files_witness :
  classify defaults season_pack <> EXCLUDED_SINGLE_EPISODE
  /\ classify defaults season_pack <> EXCLUDED_SEASON_PACK_EPISODE.
Proof.
  apply (filterByContent_many_files sample_EP sample_SEASON sample_VIDEO_EXTENSIONS
           sample_extname sample_dirname_basename defaults season_pack).
  discriminate.
Defined.

End ContentFacts.

(* ================================================================= *)
(** * Part VII: further properties of the Deluge adapter *)
(* ================================================================= *)

Module DelugeMore.

Import PreFilter Deluge DelugeFacts Notions.

Section Facts.

Variable Server : Type.
Variable serve : Server -> Request -> option AxiosResponse * Server.
Variable cfg : Config.

(** ** Invariants through a sequence *)

Section Maintains.

Variable P : Fields -> Prop.
Variable Q : Exchange -> Prop.

Lemma maintains_bind {A B} (m : M Server A) (f : A -> M Server B) :
  maintains P Q m -> (forall a, maintains P Q (f a)) -> maintains P Q (bind m f).
Proof.
  intros Hm Hf w r w' l HP H. apply bind_inv in H.
  destruct H as [(a & w1 & l1 & l2 & H1 & H2 & ->) | (e & H1 & ->)].
  - destruct (Hm _ _ _ _ HP H1) as [HP1 HQ1].
    destruct (Hf a _ _ _ _ HP1 H2) as [HP2 HQ2].
    split; auto. apply Forall_app. auto.
  - eapply Hm; eauto.
Qed.

Lemma maintains_quiet {A} (m : M Server A) :
  (forall w, snd (fst (m w)) = w /\ snd (m w) = []) -> maintains P Q m.
Proof.
  intros Hq w r w' l HP H. destruct (Hq w) as [H1 H2]. rewrite H in H1, H2.
  simpl in *. subst. auto.
Qed.

Lemma maintains_ret {A} (a : A) : maintains P Q (@ret Server A a).
Proof. now apply maintains_quiet. Qed.

Lemma maintains_throw {A} e : maintains P Q (@throw Server A e).
Proof. now apply maintains_quiet. Qed.

Lemma maintains_lift {A} (r : Result A) : maintains P Q (@lift Server A r).
Proof. now apply maintains_quiet. Qed.

Lemma maintains_get_this : maintains P Q (@get_this Server).
Proof. now apply maintains_quiet. Qed.

Lemma maintains_spawn {A} (m : M Server A) :
  maintains P Q m -> maintains P Q (spawn m).
Proof.
  intros Hm w r w' l HP H. unfold spawn in H.
  destruct (m w) as [[[a|e] w1] l1] eqn:E; inversion H; subst;
    eapply Hm; eauto.
Qed.

Lemma maintains_try_catch {A} (m : M Server A) h :
  maintains P Q m -> (forall e, maintains P Q (h e)) -> maintains P Q (try_catch m h).
Proof.
  intros Hm Hh w r w' l HP H. unfold try_catch in H.
  destruct (m w) as [[[a|e] w1] l1] eqn:E.
  - inversion H; subst. eapply Hm; eauto.
  - destruct (Hm _ _ _ _ HP E) as [HP1 HQ1].
    destruct (h e w1) as [[r2 w2] l2] eqn:E2. inversion H; subst.
    destruct (Hh e _ _ _ _ HP1 E2) as [HP2 HQ2].
    split; auto. apply Forall_app. auto.
Qed.

Ltac maintains_step :=
  first
    [ apply maintains_ret | apply maintains_throw | apply maintains_lift
    | apply maintains_get_this
    | apply maintains_bind; [|intros ?] ].

Lemma maintains_checkCompleted infohash :
  maintains P Q (sendCall serve cfg "web.update_ui" update_ui_params) ->
  maintains P Q (checkCompleted serve cfg infohash).
Proof.
  intros Hs. unfold checkCompleted. apply maintains_try_catch.
  - maintains_step; [exact Hs|]. maintains_step; [maintains_step|].
    destruct (is_Seeding a0); maintains_step.
  - intros e. repeat maintains_step.
Qed.

Lemma maintains_setLabel torrenthash :
  (forall method params, In method ["label.set_torrent"; "label.add"] ->
     maintains P Q (sendCall serve cfg method params)) ->
  maintains P Q (setLabel serve cfg torrenthash).
Proof.
  intros Hs. unfold setLabel. maintains_step; [maintains_step|].
  destruct (enLabeled a); [|maintains_step].
  maintains_step; [apply Hs; simpl; auto|].
  maintains_step; [maintains_step|].
  maintains_step; [maintains_step|].
  maintains_step; [|maintains_step].
  destruct a2; [|maintains_step].
  maintains_step; [apply Hs; simpl; auto|].
  maintains_step; [apply Hs; simpl; auto|].
  maintains_step.
Qed.

Lemma maintains_inject newTorrent searchee path :
  maintains P Q (sendCall serve cfg "web.update_ui" update_ui_params) ->
  (forall params, maintains P Q (sendCall serve cfg "core.add_torrent_file" params)) ->
  (forall h, maintains P Q (setLabel serve cfg h)) ->
  maintains P Q (inject serve cfg newTorrent searchee path).
Proof.
  intros Hu Ha Hl. unfold inject. maintains_step.
  - unfold inject_notComplete. destruct (infoHash searchee) as [h|]; [|maintains_step].
    destruct (truthy_ostr (Some h)); [|maintains_step].
    maintains_step; [now apply maintains_checkCompleted | maintains_step].
  - destruct a; [maintains_step|].
    unfold inject_submit. maintains_step; [apply Ha|].
    unfold inject_reply. maintains_step; [maintains_step|].
    destruct (truthy a0).
    + maintains_step; [|maintains_step]. apply maintains_spawn, Hl.
    + maintains_step; [maintains_step|]. maintains_step; [maintains_step|].
      destruct a2; maintains_step.
Qed.

End Maintains.

Ltac keep :=
  first
    [ apply maintains_ret | apply maintains_throw | apply maintains_lift
    | apply maintains_get_this
    | apply maintains_bind; [|intros ?] ].

(** ** The counter of message ids *)

Lemma call_bounded method params :
  maintains msgId_bounded id_bounded (call serve method params).
Proof.
  intros w r w' l HP H. rewrite call_eq in H. inversion H; subst.
  unfold msgId_bounded, id_bounded, after_call, request_of, next_id in *. simpl.
  split.
  - destruct (msgId (this w) + 1 >? 1024) eqn:G; [lia|].
    rewrite Z.gtb_ltb in G. apply Z.ltb_ge in G. lia.
  - constructor; [simpl; lia | constructor].
Qed.

Lemma put_bounded (g : Fields -> Fields) :
  (forall f, msgId (g f) = msgId f) ->
  maintains msgId_bounded id_bounded
    (bind (@get_this Server) (fun f => put_this (g f))).
Proof.
  intros Hg w r w' l HP H. unfold bind, get_this, put_this in H.
  inversion H; subst. simpl. split; [|constructor].
  unfold msgId_bounded in *. now rewrite Hg.
Qed.

Lemma authenticate_bounded :
  maintains msgId_bounded id_bounded (authenticate serve cfg).
Proof.
  unfold authenticate. keep; [keep|]. keep; [|repeat keep].
  destruct (negb (loggedIn a)).
  - keep; [apply call_bounded|]. destruct a0 as [r|]; [|keep].
    keep; [keep|]. destruct (truthy a0); [|keep].
    destruct (set_cookie (headers r)) as [[|c cs]|]; [keep| |keep].
    keep; [|intros; simpl]; now apply put_bounded.
  - keep; [apply call_bounded|]. now apply put_bounded.
Qed.

Lemma sendCall_bounded method params :
  maintains msgId_bounded id_bounded (sendCall serve cfg method params).
Proof.
  unfold sendCall. keep; [keep|]. keep; [|keep].
  destruct (negb (loggedIn a)); [|apply call_bounded].
  keep; [apply authenticate_bounded | apply call_bounded].
Qed.

Lemma setLabel_bounded h :
  maintains msgId_bounded id_bounded (setLabel serve cfg h).
Proof. apply maintains_setLabel. intros. apply sendCall_bounded. Qed.

Lemma inject_bounded newTorrent searchee path :
  maintains msgId_bounded id_bounded (inject serve cfg newTorrent searchee path).
Proof.
  apply maintains_inject; intros;
    first [apply sendCall_bounded | apply setLabel_bounded].
Qed.

Lemma validateConfig_bounded :
  maintains msgId_bounded id_bounded (validateConfig serve cfg).
Proof.
  unfold validateConfig. destruct (_ && _); [keep|].
  keep; [apply authenticate_bounded|]. destruct (negb a); [keep|].
  keep.
  - apply maintains_spawn. unfold labelEnabled.
    keep; [apply sendCall_bounded|]. repeat keep.
  - now apply put_bounded.
Qed.

(** The counter of message ids stays between 0 and 1024 through
    [validateConfig], [inject], [setLabel] and [checkCompleted], and
    every request they send has an id between 1 and 1025. *)
Theorem msgId_stays_bounded w :
  msgId_bounded (this w) ->
  (forall newTorrent searchee path,
      msgId_bounded (this (snd (fst (inject serve cfg newTorrent searchee path w))))
      /\ Forall id_bounded (snd (inject serve cfg newTorrent searchee path w)))
  /\ (msgId_bounded (this (snd (fst (validateConfig serve cfg w))))
      /\ Forall id_bounded (snd (validateConfig serve cfg w)))
  /\ (forall h,
        msgId_bounded (this (snd (fst (setLabel serve cfg h w))))
        /\ Forall id_bounded (snd (setLabel serve cfg h w)))
  /\ (forall h,
        msgId_bounded (this (snd (fst (checkCompleted serve cfg h w))))
        /\ Forall id_bounded (snd (checkCompleted serve cfg h w))).
Proof.
  intros HP. split; [|split; [|split]].
  - intros nt se path.
    destruct (inject serve cfg nt se path w) as [[r w'] l] eqn:E.
    exact (inject_bounded nt se path _ _ _ _ HP E).
  - destruct (validateConfig serve cfg w) as [[r w'] l] eqn:E.
    exact (validateConfig_bounded _ _ _ _ HP E).
  - intros h. destruct (setLabel serve cfg h w) as [[r w'] l] eqn:E.
    exact (setLabel_bounded h _ _ _ _ HP E).
  - intros h. destruct (checkCompleted serve cfg h w) as [[r w'] l] eqn:E.
    exact (maintains_checkCompleted _ _ h (sendCall_bounded _ _) _ _ _ _ HP E).
Qed.

(** ** A session that is logged in *)

Lemma sendCall_stays_loggedIn method params :
  method <> "auth.login" -> method <> "auth.check_session" ->
  maintains is_loggedIn not_auth (sendCall serve cfg method params).
Proof.
  intros H1 H2 w r w' l HP H. rewrite (sendCall_loggedIn _ _ _ _ _ w HP) in H.
  inversion H; subst. split; [exact HP|].
  constructor; [split; simpl; auto | constructor].
Qed.

(** On a session that is logged in, [inject] sends no login and no
    probe of the session, and leaves the session logged in: a session
    that the client has dropped is not noticed. *)
Theorem inject_never_reauthenticates newTorrent searchee path w :
  loggedIn (this w) = true ->
  loggedIn (this (snd (fst (inject serve cfg newTorrent searchee path w)))) = true
  /\ Forall not_auth (snd (inject serve cfg newTorrent searchee path w)).
Proof.
  intros HP.
  destruct (inject serve cfg newTorrent searchee path w) as [[r w'] l] eqn:E.
  refine (maintains_inject is_loggedIn not_auth _ _ _ _ _ _ _ _ _ _ HP E).
  - apply sendCall_stays_loggedIn; discriminate.
  - intros. apply sendCall_stays_loggedIn; discriminate.
  - intros h. apply maintains_setLabel. intros m ps [<- | [<- | []]];
      apply sendCall_stays_loggedIn; discriminate.
Qed.

(** ** An adapter that was never validated *)

Lemma sendCall_never_validated method params :
  method <> "label.set_torrent" -> method <> "label.add" ->
  maintains never_validated not_label (sendCall serve cfg method params).
Proof.
  intros H1 H2 w r w' l HP H. split.
  - apply sendCall_shape in H. destruct H as [He _].
    unfold never_validated in *. congruence.
  - apply sendCall_methods in H. eapply Forall_impl; [|exact H].
    intros x [Hx | [Hx | []]]; unfold not_label; rewrite <- Hx;
      split; auto; discriminate.
Qed.

Lemma setLabel_never_validated h w :
  enLabeled (this w) = None -> setLabel serve cfg h w = (Ret false, w, []).
Proof.
  intros H. unfold setLabel, bind, get_this. now rewrite H.
Qed.

(** On an adapter on which [validateConfig] never set [enLabeled],
    [setLabel] sends nothing and returns [false], and [inject] sends no
    label request at all, whatever the client supports. *)
Theorem inject_without_validateConfig newTorrent searchee path w :
  enLabeled (this w) = None ->
  (forall h, setLabel serve cfg h w = (Ret false, w, []))
  /\ enLabeled (this (snd (fst (inject serve cfg newTorrent searchee path w)))) = None
  /\ Forall not_label (snd (inject serve cfg newTorrent searchee path w)).
Proof.
  intros HP. split; [intros h; now apply setLabel_never_validated|].
  destruct (inject serve cfg newTorrent searchee path w) as [[r w'] l] eqn:E.
  refine (maintains_inject never_validated not_label _ _ _ _ _ _ _ _ _ _ HP E).
  - apply sendCall_never_validated; discriminate.
  - intros. apply sendCall_never_validated; discriminate.
  - intros h w0 r0 w0' l0 HP0 H0.
    rewrite (setLabel_never_validated h w0 HP0) in H0. inversion H0; subst.
    split; [exact HP0 | constructor].
Qed.

(** ** [validateConfig] *)

(** A URL with a user name and no password is refused before anything
    is sent: [validateConfig] throws the configuration error, makes no
    request and changes nothing. *)
Theorem validateConfig_username_without_password w :
  url_username cfg <> "" -> url_password cfg = "" ->
  validateConfig serve cfg w
  = (Throw (CrossSeedError
      "you need to define a password in the delugeWebUrl. (eg: http://:<PASSWORD>@localhost:8112)"),
     w, []).
Proof.
  intros Hu Hp. unfold validateConfig.
  apply String.eqb_neq in Hu. rewrite Hu, Hp. reflexivity.
Qed.

Lemma authenticate_result w r w' l :
  authenticate serve cfg w = (Ret r, w', l) -> loggedIn (this w') = r.
Proof.
  unfold authenticate. intros H.
  apply bind_inv in H.
  destruct H as [(a & w1 & l1 & l2 & H1 & H2 & ->) | (e & _ & E)]; [|discriminate].
  apply bind_inv in H2.
  destruct H2 as [(a2 & w2 & l3 & l4 & H2 & H3 & ->) | (e & _ & E)]; [|discriminate].
  unfold bind, get_this, ret in H3. inversion H3; subst. reflexivity.
Qed.

(** When [validateConfig] returns, the session is logged in and
    [enLabeled] holds a promise, whatever the promise settled to. *)
Theorem validateConfig_returns w u w' l :
  validateConfig serve cfg w = (Ret u, w', l) ->
  loggedIn (this w') = true /\ enLabeled (this w') <> None.
Proof.
  intros H.
  unfold validateConfig in H. destruct (_ && _); [discriminate|].
  apply bind_inv in H.
  destruct H as [(a & w1 & l1 & l2 & H1 & H2 & ->) | (e & _ & E)]; [|discriminate].
  apply authenticate_result in H1.
  destruct a; simpl in H2; [|discriminate].
  apply bind_inv in H2.
  destruct H2 as [(p & w2 & l3 & l4 & H2 & H3 & ->) | (e & _ & E)]; [|discriminate].
  unfold set_enLabeled, bind, get_this, put_this in H3. inversion H3; subst. simpl.
  split; [|discriminate].
  unfold spawn in H2.
  destruct (labelEnabled serve cfg w1) as [[[b|e] w3] l5] eqn:E;
    inversion H2; subst.
  - unfold labelEnabled in E. apply bind_inv in E.
    destruct E as [(a & w4 & l6 & l7 & E1 & E2 & ->) | (e & _ & E)]; [|discriminate].
    rewrite (sendCall_loggedIn _ _ _ _ _ w1 H1) in E1. inversion E1; subst.
    unfold bind, lift in E2.
    destruct (get a "result"); [|inversion E2; subst; exact H1].
    destruct (call_includes a0 "Label"); inversion E2; subst; exact H1.
  - unfold labelEnabled in E. apply bind_inv in E.
    rewrite (sendCall_loggedIn _ _ _ _ _ w1 H1) in E.
    destruct E as [(a & w4 & l6 & l7 & E1 & E2 & ->) | (e' & E1 & E)].
    + inversion E1; subst. unfold bind, lift in E2.
      destruct (get a "result"); [|inversion E2; subst; exact H1].
      destruct (call_includes a0 "Label"); inversion E2; subst; exact H1.
    + inversion E1; subst. exact H1.
Qed.

(** ** Logging in on the way *)

(** [sendCall] on a session that is not logged in, when the login is
    answered with a truthy result and a cookie: the cookie up to its
    first semicolon is kept, the session is logged in, and the call
    itself goes out with that cookie. *)
Theorem sendCall_logs_in method params w resp result c cs :
  loggedIn (this w) = false ->
  reply_of serve w "auth.login" [VStr (url_password cfg)] = Some resp ->
  get (data resp) "result" = Ret result -> truthy result = true ->
  set_cookie (headers resp) = Some (c :: cs) ->
  exists w1,
    delugeCookie (this w1) = before_semicolon c
    /\ loggedIn (this w1) = true
    /\ req_cookie (request_of w1 method params) = before_semicolon c
    /\ sendCall serve cfg method params w
       = (sendCall_return (reply_of serve w1 method params),
          after_call serve w1 method params,
          [(request_of w "auth.login" [VStr (url_password cfg)], Some resp);
           (request_of w1 method params, reply_of serve w1 method params)]).
Proof.
  intros L Hr Hg Ht Hc.
  set (w0 := after_call serve w "auth.login" [VStr (url_password cfg)]).
  exists (mkWorld (mkFields (msgId (this w0)) true (before_semicolon c)
                            (enLabeled (this w0))) (server w0)).
  split; [reflexivity|]. split; [reflexivity|]. split; [reflexivity|].
  erewrite sendCall_loggedOut; [|exact L|].
  2:{ unfold authenticate, bind, get_this. rewrite L. simpl.
      rewrite call_eq, Hr. unfold lift. rewrite Hg, Ht, Hc. simpl. reflexivity. }
  reflexivity.
Qed.

(** When the login is answered but not accepted (a falsy result, or no
    cookie), [sendCall] sends the call all the same, with the old
    cookie, and the session stays logged out. *)
Theorem sendCall_after_refused_login method params w resp result :
  loggedIn (this w) = false ->
  reply_of serve w "auth.login" [VStr (url_password cfg)] = Some resp ->
  get (data resp) "result" = Ret result ->
  truthy result = false \/ set_cookie (headers resp) = None ->
  let w1 := after_call serve w "auth.login" [VStr (url_password cfg)] in
  sendCall serve cfg method params w
  = (sendCall_return (reply_of serve w1 method params),
     after_call serve w1 method params,
     [(request_of w "auth.login" [VStr (url_password cfg)], Some resp);
      (request_of w1 method params, reply_of serve w1 method params)])
  /\ req_cookie (request_of w1 method params) = delugeCookie (this w)
  /\ loggedIn (this (after_call serve w1 method params)) = false.
Proof.
  intros L Hr Hg Hno w1. split; [|split; [reflexivity | exact L]].
  erewrite sendCall_loggedOut; [|exact L|].
  2:{ unfold authenticate, bind, get_this. rewrite L. simpl.
      rewrite call_eq, Hr. unfold lift. rewrite Hg.
      assert (Hw : mkWorld (this w1) (server w1) = w1) by (now destruct w1).
      destruct Hno as [Ht | Hc].
      - rewrite Ht. simpl. rewrite L. reflexivity.
      - rewrite Hc. destruct (truthy result); simpl; rewrite L; reflexivity. }
  simpl. reflexivity.
Qed.

(** ** What [sendCall] makes of the reply *)

(** On a session that is logged in: a reply whose [error] is [null]
    gives back the whole body; a reply with any other [error] gives
    back that error as a value; no response at all makes [sendCall]
    throw a TypeError, after the request went out. *)
Theorem sendCall_reply method params w :
  loggedIn (this w) = true ->
  (forall resp fields,
      reply_of serve w method params = Some resp -> data resp = VObj fields ->
      fst (fst (sendCall serve cfg method params w))
      = Ret (if is_null (lookup "error" fields) then VObj fields
             else lookup "error" fields))
  /\ (reply_of serve w method params = None ->
      fst (fst (sendCall serve cfg method params w)) = Throw TypeError)
  /\ calls (snd (sendCall serve cfg method params w)) = [(method, params)].
Proof.
  intros L. rewrite (sendCall_loggedIn _ _ _ _ _ w L). simpl.
  split; [|split; [|reflexivity]].
  - intros resp fields Hr Hd. rewrite Hr. unfold sendCall_return. rewrite Hd. simpl.
    now destruct (is_null (lookup "error" fields)).
  - intros Hr. now rewrite Hr.
Qed.

(** ** [checkCompleted] *)

(** [checkCompleted] ends in one of three ways: it returns [true], it
    ends without a value, or it throws a TypeError.  It throws nothing
    else, not even when the client cannot be reached at login. *)
Theorem checkCompleted_outcomes infohash w :
  In (fst (fst (checkCompleted serve cfg infohash w)))
     [Ret (Some true); Ret None; Throw TypeError].
Proof.
  rewrite checkCompleted_eq.
  destruct (sendCall serve cfg "web.update_ui" update_ui_params w)
    as [[[v|e] w1] l1]; simpl; [|auto].
  destruct (state_of v infohash) as [state|e]; [|auto].
  destruct (is_Seeding state); auto.
Qed.

(** ** [inject] *)

Lemma with_method_none m ms l :
  methods_in ms l -> ~ In m ms -> with_method m l = [].
Proof.
  intros H Hn. unfold with_method. induction H as [|x l Hx Hl IH]; simpl; auto.
  destruct (req_method (fst x) =? m)%string eqn:E; auto.
  apply String.eqb_eq in E. congruence.
Qed.

Lemma with_method_app m l1 l2 :
  with_method m (l1 ++ l2) = with_method m l1 ++ with_method m l2.
Proof. unfold with_method. apply filter_app. Qed.

Lemma speaks_inject_submit newTorrent path :
  speaks ("core.add_torrent_file" :: label_methods)
    (inject_submit serve cfg newTorrent path).
Proof.
  unfold inject_submit. apply speaks_bind.
  - apply speaks_sendCall; unfold label_methods; simpl; auto.
  - intros a w r w' l H. apply speaks_inject_reply in H.
    eapply methods_in_incl; [|exact H]. intros x Hx. now right.
Qed.

Lemma inject_skips_check newTorrent searchee path w :
  truthy_ostr (infoHash searchee) = false ->
  inject serve cfg newTorrent searchee path w
  = inject_submit serve cfg newTorrent path w.
Proof.
  intros H. unfold inject, inject_notComplete, bind, ret.
  destruct (infoHash searchee) as [h|]; [rewrite H|];
    now destruct (inject_submit serve cfg newTorrent path w) as [[r w'] l].
Qed.

(** For a searchee without an info hash [inject] goes straight to the
    submission: it never asks the client for the state of the torrents. *)
Theorem inject_without_infoHash newTorrent searchee path w :
  truthy_ostr (infoHash searchee) = false ->
  with_method "web.update_ui" (snd (inject serve cfg newTorrent searchee path w)) = []
  /\ fst (fst (inject serve cfg newTorrent searchee path w)) <> Ret TORRENT_NOT_COMPLETE.
Proof.
  intros H. rewrite (inject_skips_check _ _ _ _ H).
  destruct (inject_submit serve cfg newTorrent path w) as [[r w'] l] eqn:E. simpl.
  split.
  - apply speaks_inject_submit in E. eapply with_method_none; [exact E|].
    unfold label_methods. simpl. intuition discriminate.
  - unfold inject_submit in E. apply bind_inv in E.
    destruct E as [(a & w1 & l1 & l2 & _ & H2 & _) | (e & _ & ->)]; [|discriminate].
    unfold inject_reply, bind, lift in H2.
    destruct (get a "result") as [res|e]; [|inversion H2; discriminate].
    destruct (truthy res).
    + unfold spawn in H2. destruct (setLabel _ _ _ _) as [[[b|e] w2] l3];
        inversion H2; discriminate.
    + destruct (get a "message") as [m|e]; [|inversion H2; discriminate].
      destruct (truthy_and_includes m "already") as [[|]|e];
        inversion H2; discriminate.
Qed.

Lemma sendCall_once method params w :
  method <> "auth.login" ->
  (List.length (with_method method (snd (sendCall serve cfg method params w))) <= 1)%nat.
Proof.
  intros Hm. destruct (sendCall serve cfg method params w) as [[r w'] l] eqn:E.
  apply sendCall_shape in E. simpl.
  assert (Hno : ~ In method ["auth.login"]) by (simpl; intuition congruence).
  destruct E as [_ [(pre & w1 & -> & Hp & _) | (Hl & _)]].
  - rewrite with_method_app, (with_method_none _ _ _ Hp Hno). simpl.
    unfold with_method. simpl. destruct (_ =? _)%string; simpl; lia.
  - rewrite (with_method_none _ _ _ Hl Hno). simpl. lia.
Qed.

(** One [inject] submits the torrent at most once. *)
Theorem inject_submits_at_most_once newTorrent searchee path w :
  (List.length (with_method "core.add_torrent_file"
                  (snd (inject serve cfg newTorrent searchee path w))) <= 1)%nat.
Proof.
  destruct (inject serve cfg newTorrent searchee path w) as [[r w'] l] eqn:E.
  simpl. unfold inject in E. apply bind_inv in E.
  destruct E as [(a & w1 & l1 & l2 & H1 & H2 & ->) | (e & H1 & ->)].
  - apply speaks_inject_notComplete in H1.
    rewrite with_method_app, (with_method_none _ _ _ H1 add_not_check). simpl.
    destruct a; [inversion H2; subst; simpl; lia|].
    unfold inject_submit in H2. apply bind_inv in H2.
    destruct H2 as [(v & w2 & l3 & l4 & H2 & H3 & ->) | (e & H2 & ->)].
    + apply speaks_inject_reply in H3.
      rewrite with_method_app, (with_method_none _ _ _ H3 add_not_label), app_nil_r.
      pose proof (sendCall_once "core.add_torrent_file"
                    (formatData cfg (meta_name newTorrent ++ ".cross-seed.torrent")%string
                       (encoded_base64 newTorrent) path) w1 ltac:(discriminate)) as Ho.
      now rewrite H2 in Ho.
    + pose proof (sendCall_once "core.add_torrent_file"
                    (formatData cfg (meta_name newTorrent ++ ".cross-seed.torrent")%string
                       (encoded_base64 newTorrent) path) w1 ltac:(discriminate)) as Ho.
      now rewrite H2 in Ho.
  - apply speaks_inject_notComplete in H1.
    rewrite (with_method_none _ _ _ H1 add_not_check). simpl. lia.
Qed.

Lemma sendCall_return_refused word o :
  error_without word o = true ->
  exists v result message,
    sendCall_return o = Ret v /\ get v "result" = Ret result /\ truthy result = false
    /\ get v "message" = Ret message
    /\ truthy_and_includes message word = Ret false.
Proof.
  destruct o as [[d h]|]; simpl; [|discriminate].
  destruct d; try discriminate. simpl.
  destruct (lookup "error" fields) as [| | | | | |e] eqn:E; try discriminate.
  simpl. intros H. apply andb_true_iff in H. destruct H as [Hr Hm].
  exists (VObj e), (lookup "result" e), (lookup "message" e).
  split; [reflexivity|]. split; [reflexivity|].
  split; [now apply negb_true_iff|]. split; [reflexivity|].
  unfold truthy_and_includes.
  destruct (lookup "message" e) as [| | | |m| |]; try discriminate; simpl; auto.
  destruct (negb (m =? "")%string); auto.
  apply negb_true_iff in Hm. now rewrite Hm.
Qed.

(** When the client answers the submission with an error whose message
    does not say "already", [inject] returns FAILURE, as a value. *)
Theorem inject_failure newTorrent searchee path w r w' l x :
  inject serve cfg newTorrent searchee path w = (r, w', l) ->
  In x l -> req_method (fst x) = "core.add_torrent_file" ->
  error_without "already" (snd x) = true ->
  r = Ret FAILURE.
Proof.
  intros H Hx Hm Hk. unfold inject in H. apply bind_inv in H.
  destruct H as [(a & w1 & l1 & l2 & H1 & H2 & ->) | (e & H1 & ->)].
  2:{ exfalso. apply speaks_inject_notComplete in H1.
      apply (not_in_methods _ _ x H1); [|exact Hx]. rewrite Hm. apply add_not_check. }
  apply speaks_inject_notComplete in H1.
  apply in_app_or in Hx. destruct Hx as [Hx | Hx].
  { exfalso. apply (not_in_methods _ _ x H1); [|exact Hx].
    rewrite Hm. apply add_not_check. }
  destruct a; [inversion H2; subst; destruct Hx|].
  unfold inject_submit in H2. apply bind_inv in H2.
  destruct (sendCall_return_refused _ _ Hk) as (v & res & msg & Hv & Hg & Ht & Hmsg & Hi).
  destruct H2 as [(v' & w2 & l3 & l4 & H2 & H3 & ->) | (e & H2 & ->)].
  - assert (Hx1 : In x l3).
    { apply in_app_or in Hx. destruct Hx as [Hx | Hx]; [exact Hx|].
      exfalso. apply speaks_inject_reply in H3.
      apply (not_in_methods _ _ x H3); [|exact Hx]. rewrite Hm. apply add_not_label. }
    pose proof (sendCall_exchange _ _ _ _ _ _ _ _ _ x H2 ltac:(discriminate) Hx1 Hm) as Hr.
    rewrite Hv in Hr. injection Hr as ->.
    unfold inject_reply, bind, lift in H3. rewrite Hg, Ht, Hmsg, Hi in H3.
    now inversion H3.
  - pose proof (sendCall_exchange _ _ _ _ _ _ _ _ _ x H2 ltac:(discriminate) Hx Hm) as Hr.
    congruence.
Qed.

End Facts.

(** ** On the sample clients *)

Import Samples MoreSamples.

Lemma msgId_stays_bounded_witness :
  msgId (this (snd (fst (inject_sample label_serve show_from_client late_world)))) = 4
  /\ List.map (fun x => req_id (fst x))
       (snd (inject_sample label_serve show_from_client late_world))
     = [1025; 1; 2; 3; 4]
  /\ Forall id_bounded (snd (inject_sample label_serve show_from_client late_world)).
Proof.
  split; [reflexivity|]. split; [reflexivity|].
  apply (msgId_stays_bounded _ label_serve sample_cfg late_world).
  unfold msgId_bounded. simpl. lia.
Defined.

Lemma inject_never_reauthenticates_witness :
  loggedIn (this (snd (fst (inject_sample dead_serve show_from_client
                              (mkWorld (this labelled_world) tt))))) = true
  /\ Forall not_auth (snd (inject_sample dead_serve show_from_client
                             (mkWorld (this labelled_world) tt))).
Proof.
  apply (inject_never_reauthenticates _ dead_serve sample_cfg sample_metafile
           show_from_client None (mkWorld (this labelled_world) tt)).
  reflexivity.
Defined.

Lemma inject_without_validateConfig_witness :
  fst (fst (inject_sample label_serve show_from_client new_world)) = Ret SUCCESS
  /\ Forall not_label (snd (inject_sample label_serve show_from_client new_world)).
Proof.
  split; [reflexivity|].
  apply (inject_without_validateConfig _ label_serve sample_cfg sample_metafile
           show_from_client None new_world).
  reflexivity.
Defined.

Lemma validateConfig_username_without_password_witness :
  snd (validateConfig label_serve cfg_without_password new_world) = [].
Proof.
  rewrite (validateConfig_username_without_password _ label_serve cfg_without_password
             new_world); [reflexivity | discriminate | reflexivity].
Defined.

Lemma validateConfig_returns_witness :
  loggedIn (this (validated plain_serve new_world)) = true
  /\ enLabeled (this (validated plain_serve new_world)) <> None.
Proof.
  apply (validateConfig_returns _ plain_serve sample_cfg new_world tt
           (validated plain_serve new_world)
           (snd (validateConfig plain_serve sample_cfg new_world))).
  vm_compute. reflexivity.
Defined.

Lemma sendCall_logs_in_witness :
  List.map (fun x => (req_method (fst x), req_cookie (fst x)))
    (snd (sendCall label_serve sample_cfg "core.get_enabled_plugins" [] new_world))
  = [("auth.login", ""); ("core.get_enabled_plugins", "_session_id=2f6d0b1c")].
Proof.
  destruct (sendCall_logs_in _ label_serve sample_cfg "core.get_enabled_plugins" []
              new_world
              (mkResponse (VObj [("result", VBool true); ("error", VNull); ("id", VNum 1)])
                 (mkHeaders (Some ["_session_id=2f6d0b1c; Expires=Fri, 03 Nov 2023 10:00:00 GMT; Path=/"])))
              (VBool true)
              "_session_id=2f6d0b1c; Expires=Fri, 03 Nov 2023 10:00:00 GMT; Path=/" []
              eq_refl eq_refl eq_refl eq_refl eq_refl)
    as (w1 & Hc & _ & _ & Hs).
  rewrite Hs. simpl. rewrite Hc. reflexivity.
Defined.

Lemma sendCall_after_refused_login_witness :
  calls (snd (sendCall refusing_serve sample_cfg "core.get_enabled_plugins" []
                dead_world))
  = [("auth.login", [VStr "deluge"]); ("core.get_enabled_plugins", [])]
  /\ loggedIn (this (snd (fst (sendCall refusing_serve sample_cfg
                                 "core.get_enabled_plugins" [] dead_world)))) = false.
Proof.
  destruct (sendCall_after_refused_login _ refusing_serve sample_cfg
              "core.get_enabled_plugins" [] dead_world
              (mkResponse (VObj [("result", VBool false); ("error", VNull); ("id", VNum 1)])
                 (mkHeaders None))
              (VBool false) eq_refl eq_refl eq_refl (or_introl eq_refl))
    as (Hs & _ & Hl).
  rewrite Hs. split; [reflexivity | exact Hl].
Defined.

Lemma sendCall_reply_witness :
  fst (fst (sendCall dead_serve sample_cfg "core.get_enabled_plugins" []
              (mkWorld (this labelled_world) tt))) = Throw TypeError.
Proof.
  apply (sendCall_reply _ dead_serve sample_cfg "core.get_enabled_plugins" []
           (mkWorld (this labelled_world) tt) eq_refl).
  reflexivity.
Defined.

Lemma inject_without_infoHash_witness :
  with_method "web.update_ui" (snd (inject_sample label_serve show_from_disk new_world))
  = [].
Proof.
  apply (inject_without_infoHash _ label_serve sample_cfg sample_metafile
           show_from_disk None new_world).
  reflexivity.
Defined.

Lemma inject_failure_witness :
  fst (fst (inject_sample refusing_serve show_from_disk dead_world)) = Ret FAILURE.
Proof.
  apply (inject_failure _ refusing_serve sample_cfg sample_metafile show_from_disk None
           dead_world _
           (snd (fst (inject_sample refusing_serve show_from_disk dead_world)))
           (snd (inject_sample refusing_serve show_from_disk dead_world))
           (nth 1 (snd (inject_sample refusing_serve show_from_disk dead_world))
                (mkRequest 0 "" [] "", None))).
  - vm_compute. reflexivity.
  - vm_compute. right. left. reflexivity.
  - reflexivity.
  - reflexivity.
Defined.

End DelugeMore.
